(** * EdgeUtilities: the process view's refresh coordinator

    A shallow embedding of [src/tabs/ProcessesTab.tsx]: the data carried by
    the process view, the carry-forward merge done when a snapshot is
    published, the patch applied when the debug-target query resolves, the
    display sort, and the state changes of one refresh cycle seen as events.

    Numbers that are process ids are integers ([Z]); the two usage samples
    are IEEE doubles ([SpecFloat.spec_float]); strings are [string]; a JS
    object used as a dictionary is a [gmap] of its own keys, with the
    properties it inherits from its prototype accounted for where the code
    looks up a key it has not put there; a [Set<number>] is a [gset Z]. *)

From Stdlib Require Import ZArith String Ascii List Sorting.Sorted Permutation.
From Stdlib Require Floats.SpecFloat.
From stdpp Require Import base option list gmap strings.

Local Open Scope string_scope.
Local Open Scope Z_scope.

(** ** Data model *)

Abbreviation number := SpecFloat.spec_float.

(** The double nearest to [m * 2^e]. *)
Definition double (m e : Z) : number := SpecFloat.binary_normalize 53 1024 m e false.

(** [interface ProcessInfo] *)
Record ProcessInfo := mkProcessInfo {
  pid : Z;
  parent_pid : option Z;
  name : string;
  exe_path : string;
  cmd_args : list string;
  process_type : string;
  memory_mb : number;
  cpu_percent : number;
  url : string;
  cdp_target_type : string;
  instance_type : string;
}.

(** [interface ProcessGroup]; the record's own [instance_type] field is
    named [group_instance_type] here, the projection name being taken. The
    type of [processes] is a parameter: a list of records when only values
    matter, a reference to an array object where object identity does. *)
Record ProcessGroupOf (PS : Type) := mkProcessGroup {
  browser_pid : Z;
  browser_exe : string;
  channel : string;
  group_instance_type : string;
  host_app : string;
  processes : PS;
}.
Arguments mkProcessGroup {PS}.
Arguments browser_pid {PS}.
Arguments browser_exe {PS}.
Arguments channel {PS}.
Arguments group_instance_type {PS}.
Arguments host_app {PS}.
Arguments processes {PS}.

Abbreviation ProcessGroup := (ProcessGroupOf (list ProcessInfo)).

(** One entry of the debug endpoint's answer for a port. *)
Record CdpEntry := mkCdpEntry {
  process_id : option Z;
  entry_url : string;
  target_type : option string;
}.

(** The answer of [get_cdp_urls]: port (as text) to the targets open on it.
    These are the answer's own keys; what a lookup finds besides them is
    [portMap_get] below. *)
Abbreviation PortMap := (gmap string (list CdpEntry)).

(** Spread syntax [{ ...proc, url: u, cdp_target_type: t }]. *)
Definition with_debug (proc : ProcessInfo) (u t : string) : ProcessInfo :=
  {| pid := pid proc; parent_pid := parent_pid proc; name := name proc;
     exe_path := exe_path proc; cmd_args := cmd_args proc;
     process_type := process_type proc; memory_mb := memory_mb proc;
     cpu_percent := cpu_percent proc; url := u; cdp_target_type := t;
     instance_type := instance_type proc |}.

(** Spread syntax [{ ...group, processes: ps }]. *)
Definition with_processes {PS QS} (group : ProcessGroupOf PS) (ps : QS)
  : ProcessGroupOf QS :=
  {| browser_pid := browser_pid group; browser_exe := browser_exe group;
     channel := channel group; group_instance_type := group_instance_type group;
     host_app := host_app group; processes := ps |}.

(** ** String helpers *)

(** JS truthiness of a string: the empty string is falsy. *)
Definition truthy_str (s : string) : bool :=
  match s with EmptyString => false | String _ _ => true end.

(** JS truthiness of a [number | null] that holds an integer: [null] and
    [0] are falsy. *)
Definition truthy_num (n : option Z) : bool :=
  match n with None => false | Some z => negb (Z.eqb z 0) end.

(** [s.startsWith(p)] *)
Definition startsWith (s p : string) : bool := String.prefix p s.

(** [s.split(c)] for a one-character separator: the pieces between
    separators, at least one piece. *)
Fixpoint split_go (c : ascii) (s : string) (cur : string) : list string :=
  match s with
  | EmptyString => [String.rev cur]
  | String a rest =>
      if Ascii.eqb a c then String.rev cur :: split_go c rest EmptyString
      else split_go c rest (String a cur)
  end.

Definition split (c : ascii) (s : string) : list string :=
  split_go c s EmptyString.

(** [x ?? ""] *)
Definition or_empty (o : option string) : string := default "" o.

Definition str_eqb (a b : string) : bool := String.eqb a b.

(** ** Publishing a snapshot: carry-forward of debug URLs

    The first [setGroups] updater of [refresh]. *)

(** The inner loop body: [if (p.url) urlMap.set(p.pid, {...})]. *)
Definition urlMap_add (m : gmap Z (string * string)) (p : ProcessInfo)
  : gmap Z (string * string) :=
  if truthy_str (url p) then <[pid p := (url p, cdp_target_type p)]> m else m.

(** The two nested [for ... of] loops over the previous state. *)
Definition build_urlMap (prev : list ProcessGroup) : gmap Z (string * string) :=
  foldl (fun m g => foldl urlMap_add m (processes g)) ∅ prev.

Definition carry_proc (urlMap : gmap Z (string * string)) (proc : ProcessInfo)
  : ProcessInfo :=
  match urlMap !! pid proc with
  | Some (u, t) => with_debug proc u t
  | None => proc
  end.

Definition carry_forward (prev data : list ProcessGroup) : list ProcessGroup :=
  let urlMap := build_urlMap prev in
  map (fun group => with_processes group (map (carry_proc urlMap) (processes group)))
      data.

(** ** Applying a debug-endpoint answer

    The second [setGroups] updater of [refresh], on values; the flags
    [groupChanged] and [changed] are returned next to the value. *)

Definition port_flag : string := "--remote-debugging-port=".

(** [group.processes.find((p) => p.process_type === "Browser")] *)
Definition find_browser (procs : list ProcessInfo) : option ProcessInfo :=
  find (fun p => str_eqb (process_type p) "Browser") procs.

(** [browser.cmd_args.find((a) => a.startsWith("--remote-debugging-port="))] *)
Definition port_arg (browser : ProcessInfo) : option string :=
  find (fun a => startsWith a port_flag) (cmd_args browser).

(** [portArg?.split("=")[1]] *)
Definition port_of (browser : ProcessInfo) : option string :=
  a ← port_arg browser; split "=" a !! 1%nat.

(** The pages the group is patched from: [None] on each early
    [return group]. The lookup [portMap[port]] is taken among the answer's
    own keys; [group_throws] below says when the code finds something else
    under the port text and the callback does not return at all. *)
Definition pages_for (portMap : PortMap) (procs : list ProcessInfo)
  : option (list CdpEntry) :=
  browser ← find_browser procs;
  port ← port_of browser;
  if truthy_str port then portMap !! port else None.

(** [(p) => p.process_id && p.process_id === proc.pid] *)
Definition entry_matches (proc : ProcessInfo) (p : CdpEntry) : bool :=
  truthy_num (process_id p) &&
  match process_id p with Some z => Z.eqb z (pid proc) | None => false end.

(** [match.url !== proc.url || (match.target_type ?? "") !== proc.cdp_target_type] *)
Definition entry_differs (proc : ProcessInfo) (m : CdpEntry) : bool :=
  negb (str_eqb (entry_url m) (url proc)) ||
  negb (str_eqb (or_empty (target_type m)) (cdp_target_type proc)).

(** The callback of [group.processes.map]: the flag says whether it set
    [groupChanged]. *)
Definition patch_proc (pages : list CdpEntry) (proc : ProcessInfo)
  : bool * ProcessInfo :=
  match find (entry_matches proc) pages with
  | Some m =>
      if entry_differs proc m
      then (true, with_debug proc (entry_url m) (or_empty (target_type m)))
      else (false, proc)
  | None => (false, proc)
  end.

(** The callback of [prev.map]: the flag says whether it set [changed]. *)
Definition patch_group (portMap : PortMap) (group : ProcessGroup)
  : bool * ProcessGroup :=
  match pages_for portMap (processes group) with
  | None => (false, group)
  | Some pages =>
      let results := map (patch_proc pages) (processes group) in
      let groupChanged := existsb fst results in
      let updatedProcesses := map snd results in
      if groupChanged then (true, with_processes group updatedProcesses)
      else (false, group)
  end.

(** The updater: [changed ? next : prev], with the flag. *)
Definition apply_cdp (portMap : PortMap) (prev : list ProcessGroup)
  : bool * list ProcessGroup :=
  let results := map (patch_group portMap) prev in
  let changed := existsb fst results in
  let next := map snd results in
  (changed, if changed then next else prev).

(** ** The view's state and the events of a refresh cycle *)

Record View := mkView {
  groups : list ProcessGroup;
  loading : bool;
  expandedGroups : gset Z;
  statusMsg : string;
  (** what [console.error] has written, oldest first *)
  console : list string;
  (** how many times [get_cdp_urls] has been invoked *)
  cdp_calls : nat;
}.

(** The [useState] initial values. *)
Definition initial_view : View :=
  {| groups := []; loading := true; expandedGroups := ∅; statusMsg := "";
     console := []; cdp_calls := 0 |}.

(** What happens to the view while [refresh] runs. The promise callbacks of
    one cycle run at different times and callbacks of different cycles may
    interleave; each runs to completion. The cycle number is bookkeeping of
    the trace only: the code keeps none. [step] below is the view after an
    event whose callback returns; [throws] and [try_step] further down say
    when the updater of an answer does not. *)
Inductive event :=
  | Started (cycle : nat) (showLoading : bool)
  | SnapshotOk (cycle : nat) (showLoading : bool) (data : list ProcessGroup)
  | SnapshotFailed (cycle : nat) (showLoading : bool) (err : string)
  | CdpOk (cycle : nat) (portMap : option PortMap)
  | CdpFailed (cycle : nat).

Definition set_loading (b : bool) (v : View) : View :=
  {| groups := groups v; loading := b; expandedGroups := expandedGroups v;
     statusMsg := statusMsg v; console := console v; cdp_calls := cdp_calls v |}.

Definition set_groups (gs : list ProcessGroup) (v : View) : View :=
  {| groups := gs; loading := loading v; expandedGroups := expandedGroups v;
     statusMsg := statusMsg v; console := console v; cdp_calls := cdp_calls v |}.

Definition set_expanded (e : gset Z) (v : View) : View :=
  {| groups := groups v; loading := loading v; expandedGroups := e;
     statusMsg := statusMsg v; console := console v; cdp_calls := cdp_calls v |}.

Definition console_error (line : string) (v : View) : View :=
  {| groups := groups v; loading := loading v;
     expandedGroups := expandedGroups v; statusMsg := statusMsg v;
     console := console v ++ [line]; cdp_calls := cdp_calls v |}.

(** [invoke("get_cdp_urls")]: the query leaves; its answer is a later event. *)
Definition invoke_cdp (v : View) : View :=
  {| groups := groups v; loading := loading v;
     expandedGroups := expandedGroups v; statusMsg := statusMsg v;
     console := console v; cdp_calls := S (cdp_calls v) |}.

(** [data.filter((g) => g.instance_type !== "WebView2").map((g) => g.browser_pid)] *)
Definition expand_all (data : list ProcessGroup) : gset Z :=
  list_to_set
    (map browser_pid
       (List.filter (fun g => negb (str_eqb (group_instance_type g) "WebView2")) data)).

(** [!portMap || Object.keys(portMap).length === 0] *)
Definition no_ports (portMap : option PortMap) : bool :=
  match portMap with
  | None => true
  | Some m => bool_decide (m = ∅)
  end.

Definition step (e : event) (v : View) : View :=
  match e with
  | Started _ showLoading =>
      if showLoading then set_loading true v else v
  | SnapshotOk _ showLoading data =>
      let v1 := set_groups (carry_forward (groups v) data) v in
      let v2 := if showLoading then set_expanded (expand_all data) v1 else v1 in
      let v3 := invoke_cdp v2 in
      if showLoading then set_loading false v3 else v3
  | SnapshotFailed _ showLoading err =>
      let v1 := console_error ("Failed to get processes: " +:+ err) v in
      if showLoading then set_loading false v1 else v1
  | CdpOk _ portMap =>
      match portMap with
      | Some m => if no_ports portMap then v
                  else set_groups (snd (apply_cdp m (groups v))) v
      | None => v
      end
  | CdpFailed _ => v
  end.

(** The view after a sequence of events, oldest first. *)
Definition run (tr : list event) (v : View) : View :=
  foldl (fun v e => step e v) v tr.

(** ** The display sort *)

(** [c.toLowerCase()] on one character. Only the letters A to Z are mapped;
    no other character lowercases to a letter of a [typeOrder] key. *)
Definition lower_ascii (c : ascii) : ascii :=
  let n := nat_of_ascii c in
  if (65 <=? n)%nat && (n <=? 90)%nat then ascii_of_nat (n + 32) else c.

Fixpoint toLowerCase (s : string) : string :=
  match s with
  | EmptyString => EmptyString
  | String c rest => String (lower_ascii c) (toLowerCase rest)
  end.

(** [s.replace(/\(s\)$/, "")]: drop a final [(s)]. *)
Fixpoint strip_plural (s : string) : string :=
  match s with
  | EmptyString => EmptyString
  | String c rest => if str_eqb s "(s)" then EmptyString
                     else String c (strip_plural rest)
  end.

Definition typeOrder : list (string * Z) :=
  [("browser", 0); ("renderer", 1); ("gpu", 2); ("crashpad", 3); ("utility", 4)].

(** The key a record is looked up under. *)
Definition type_key (p : ProcessInfo) : string :=
  strip_plural (toLowerCase (process_type p)).

(** [typeOrder[key] ?? 99]. The backend's type labels are role names; none
    is the name of a property that [typeOrder] inherits from its
    prototype. *)
Definition order_of (p : ProcessInfo) : Z :=
  default 99 (snd <$> find (fun kv => str_eqb (fst kv) (type_key p)) typeOrder).

(** [Array.prototype.sort] with a comparator is a stable sort; for a
    comparator that compares keys its result is determined by that alone.
    Insertion from the right, each element going in front of the first one
    it does not come after, computes it. *)
Fixpoint sort_insert {A} (cmp : A -> A -> Z) (x : A) (l : list A) : list A :=
  match l with
  | [] => [x]
  | y :: rest => if cmp x y <=? 0 then x :: l else y :: sort_insert cmp x rest
  end.

Fixpoint array_sort {A} (cmp : A -> A -> Z) (l : list A) : list A :=
  match l with
  | [] => []
  | x :: rest => sort_insert cmp x (array_sort cmp rest)
  end.

Definition sortProcesses (procs : list ProcessInfo) : list ProcessInfo :=
  array_sort (fun a b => order_of a - order_of b) procs.

(** The precedence the specification gives, on the same key: Browser,
    Renderer, Extension, GPU, Crashpad, Utility, then anything else. *)
Definition precedence (p : ProcessInfo) : Z :=
  let k := type_key p in
  if str_eqb k "browser" then 0
  else if str_eqb k "renderer" then 1
  else if str_eqb k "extension" then 2
  else if str_eqb k "gpu" then 3
  else if str_eqb k "crashpad" then 4
  else if str_eqb k "utility" then 5
  else 6.

(** Order by precedence, ties by ascending pid. *)
Definition precedes (a b : ProcessInfo) : Prop :=
  precedence a < precedence b \/ (precedence a = precedence b /\ pid a <= pid b).

Definition is_extension (p : ProcessInfo) : bool := str_eqb (type_key p) "extension".

(** The members a sort statement speaks about: those of one precedence,
    extensions left aside. *)
Definition of_precedence (k : Z) (p : ProcessInfo) : bool :=
  negb (is_extension p) && Z.eqb (precedence p) k.

(** ** The group builder

    [get_edge_processes] is answered by the backend ([processes.rs]), which
    is not among the sources at hand. The builder below follows section 4.2
    of the specification, on the records the view receives. *)

Module GroupBuilder.
Section Builder.

(** The channel of a root process and the host application of a WebView2
    root are decided by the classifier; the builder only stores them. *)
Variable channel_of : ProcessInfo -> string.
Variable host_app_of : ProcessInfo -> string.

Definition is_browser (p : ProcessInfo) : bool :=
  str_eqb (process_type p) "Browser".

(** Modelled from the spec: step 1 of the backend's group builder, "index
    all records by pid". *)
Definition index_by_pid (classified : list ProcessInfo) : gmap Z ProcessInfo :=
  foldl (fun m p => <[pid p := p]> m) ∅ classified.

(** Modelled from the spec: step 2 of the backend's group builder, "walk
    the parent-pid chain upward until reaching a record classified as
    Browser role, or until the chain breaks", at most [fuel] steps up. *)
Fixpoint walk (idx : gmap Z ProcessInfo) (fuel : nat) (p : ProcessInfo)
  : option ProcessInfo :=
  if is_browser p then Some p
  else match fuel with
       | O => None
       | S fuel' =>
           pp ← parent_pid p;
           parent ← idx !! pp;
           walk idx fuel' parent
       end.

(** Modelled from the spec: the walk of one record of a snapshot, "bounded
    by the size of the input set". *)
Definition root_of (classified : list ProcessInfo) (p : ProcessInfo)
  : option ProcessInfo :=
  walk (index_by_pid classified) (length classified) p.

(** Modelled from the spec: step 3 of the backend's group builder, "group
    all records whose walk terminates at the same Browser-role pid into one
    ProcessGroup anchored at that pid". The group is opened when its root
    is met for the first time. *)
Fixpoint add_member (root p : ProcessInfo)
    (acc : list (ProcessInfo * list ProcessInfo))
  : list (ProcessInfo * list ProcessInfo) :=
  match acc with
  | [] => [(root, [p])]
  | (r, ms) :: rest =>
      if Z.eqb (pid r) (pid root) then (r, (ms ++ [p])%list) :: rest
      else (r, ms) :: add_member root p rest
  end.

(** The grouping pass over the records [l], from groups [acc] on; a record
    whose walk reaches no Browser record is left out. *)
Definition collect_from (classified : list ProcessInfo)
    (acc : list (ProcessInfo * list ProcessInfo)) (l : list ProcessInfo)
  : list (ProcessInfo * list ProcessInfo) :=
  foldl (fun acc p =>
           match root_of classified p with
           | Some root => add_member root p acc
           | None => acc
           end) acc l.

Definition collect (classified : list ProcessInfo)
  : list (ProcessInfo * list ProcessInfo) :=
  collect_from classified [] classified.

(** The members collected so far for the root with a given pid. *)
Definition members_of (k : Z) (acc : list (ProcessInfo * list ProcessInfo))
  : list ProcessInfo :=
  match find (fun rm => Z.eqb (pid (fst rm)) k) acc with
  | Some rm => snd rm
  | None => []
  end.

(** The walk of the record ends at the Browser record with the given pid. *)
Definition walks_to (classified : list ProcessInfo) (k : Z) (p : ProcessInfo)
  : bool :=
  match root_of classified p with
  | Some root => Z.eqb (pid root) k
  | None => false
  end.

(** The chain of the record reaches the Browser record [root] in exactly
    [k] steps up, meeting no Browser record before. *)
Inductive reaches (idx : gmap Z ProcessInfo)
  : ProcessInfo -> nat -> ProcessInfo -> Prop :=
  | reaches_here p : is_browser p = true -> reaches idx p O p
  | reaches_up p pp parent k root :
      is_browser p = false -> parent_pid p = Some pp ->
      idx !! pp = Some parent -> reaches idx parent k root ->
      reaches idx p (S k) root.

(** Modelled from the spec: the comparison behind step 4 of the backend's
    group builder, "a fixed role precedence: Browser, Renderer, Extension,
    GPU, Crashpad, Utility, then Unknown; ties broken by ascending pid".
    Negative when [a] goes first. *)
Definition member_cmp (a b : ProcessInfo) : Z :=
  if precedence a <? precedence b then -1
  else if precedence b <? precedence a then 1
  else pid a - pid b.

(** Modelled from the spec: step 4 of the backend's group builder, the
    order of the members within a group. *)
Definition sort_members (members : list ProcessInfo) : list ProcessInfo :=
  array_sort member_cmp members.

(** Modelled from the spec: the group-level fields of the backend's group
    builder, "taken from the root process", the host application "only when
    the group's instance_type is WebView2"; the members in the order of
    step 4. *)
Definition make_group (rm : ProcessInfo * list ProcessInfo) : ProcessGroup :=
  let root := fst rm in
  {| browser_pid := pid root;
     browser_exe := exe_path root;
     channel := channel_of root;
     group_instance_type := instance_type root;
     host_app := if str_eqb (instance_type root) "WebView2"
                 then host_app_of root else "";
     processes := sort_members (snd rm) |}.

(** Modelled from the spec: the backend's [build_groups], flat classified
    process list to browser-rooted groups, in the order the roots are first
    met. *)
Definition build_groups (classified : list ProcessInfo) : list ProcessGroup :=
  map make_group (collect classified).

End Builder.
End GroupBuilder.

(** ** Object identity

    React keeps the state it is handed when an updater returns the very
    object it was given. To speak about that, a JS object is a value
    together with its identity, and creating one (a spread, the array a
    [map] returns) takes the next free identity. No object of this code is
    written to after its creation, so an object's contents can travel with
    its identity. *)

Module Objects.

Record obj (A : Type) := mkObj { oid : nat; val : A }.
Arguments mkObj {A}.
Arguments oid {A}.
Arguments val {A}.

Abbreviation ProcArray := (obj (list (obj ProcessInfo))).
Abbreviation GroupObj := (obj (ProcessGroupOf ProcArray)).
Abbreviation GroupArray := (obj (list GroupObj)).

(** Computations that create objects: the next free identity is threaded
    through. *)
Definition Alloc (A : Type) : Type := nat -> A * nat.

Definition ret {A} (a : A) : Alloc A := fun n => (a, n).

Definition bind {A B} (m : Alloc A) (k : A -> Alloc B) : Alloc B :=
  fun n => let (a, n') := m n in k a n'.

Definition new {A} (v : A) : Alloc (obj A) := fun n => (mkObj n v, S n).

(** The callbacks of [Array.prototype.map], run left to right. *)
Fixpoint map_callbacks {A B} (f : A -> Alloc B) (l : list A) : Alloc (list B) :=
  match l with
  | [] => ret []
  | x :: rest =>
      bind (f x) (fun y =>
      bind (map_callbacks f rest) (fun ys => ret (y :: ys)))
  end.

(** What an array of process objects holds, as values. *)
Definition proc_values (a : ProcArray) : list ProcessInfo := map val (val a).



Definition patch_proc_obj (pages : list CdpEntry) (proc : obj ProcessInfo)
  : Alloc (bool * obj ProcessInfo) :=
  match find (entry_matches (val proc)) pages with
  | Some m =>
      if entry_differs (val proc) m
      then bind (new (with_debug (val proc) (entry_url m)
                                 (or_empty (target_type m))))
                (fun o => ret (true, o))
      else ret (false, proc)
  | None => ret (false, proc)
  end.

Definition patch_group_obj (portMap : PortMap) (group : GroupObj)
  : Alloc (bool * GroupObj) :=
  match pages_for portMap (proc_values (processes (val group))) with
  | None => ret (false, group)
  | Some pages =>
      bind (map_callbacks (patch_proc_obj pages) (val (processes (val group))))
           (fun results =>
      bind (new (map snd results)) (fun updatedProcesses =>
      if existsb fst results
      then bind (new (with_processes (val group) updatedProcesses))
                (fun g => ret (true, g))
      else ret (false, group)))
  end.

Definition apply_cdp_obj (portMap : PortMap) (prev : GroupArray)
  : Alloc GroupArray :=
  bind (map_callbacks (patch_group_obj portMap) (val prev)) (fun results =>
  bind (new (map snd results)) (fun next =>
  ret (if existsb fst results then next else prev))).



End Objects.

(** ** Predicates used in the statements *)

(** All records of a published list, in order. *)
Definition all_records (gs : list ProcessGroup) : list ProcessInfo :=
  concat (map processes gs).

(** The entry a record is patched from, if any. *)
Definition match_for (pages : list CdpEntry) (proc : ProcessInfo)
  : option CdpEntry :=
  find (entry_matches proc) pages.

(** The record carries the entry's URL and target type. *)
Definition carries (proc : ProcessInfo) (m : CdpEntry) : Prop :=
  url proc = entry_url m /\ cdp_target_type proc = or_empty (target_type m).

(** The record a patch leaves, whatever the flag. *)
Definition patched (pages : list CdpEntry) (proc : ProcessInfo) : ProcessInfo :=
  match match_for pages proc with
  | Some m => with_debug proc (entry_url m) (or_empty (target_type m))
  | None => proc
  end.

(** The group a patch leaves, whatever the flag. *)
Definition patched_group (portMap : PortMap) (group : ProcessGroup) : ProcessGroup :=
  match pages_for portMap (processes group) with
  | Some pages => with_processes group (map (patched pages) (processes group))
  | None => group
  end.

(** An answer would change some record of the list. *)
Definition would_change (portMap : PortMap) (gs : list ProcessGroup) : Prop :=
  exists g proc pages m,
    g ∈ gs /\ proc ∈ processes g /\
    pages_for portMap (processes g) = Some pages /\
    match_for pages proc = Some m /\ ~ carries proc m.

(** Two records that agree on every field a patch must leave alone. *)
Definition same_but_debug (p p' : ProcessInfo) : Prop :=
  pid p' = pid p /\ parent_pid p' = parent_pid p /\ name p' = name p /\
  exe_path p' = exe_path p /\ cmd_args p' = cmd_args p /\
  memory_mb p' = memory_mb p /\ cpu_percent p' = cpu_percent p /\
  process_type p' = process_type p /\ instance_type p' = instance_type p.

(** Two groups with the same group-level fields and, position by position,
    the same members up to their debug fields. *)
Definition same_frame (g g' : ProcessGroup) : Prop :=
  browser_pid g' = browser_pid g /\ browser_exe g' = browser_exe g /\
  channel g' = channel g /\ group_instance_type g' = group_instance_type g /\
  host_app g' = host_app g /\
  Forall2 same_but_debug (processes g) (processes g').

(** The group exposes no debugging port: it has no member of type Browser,
    or the Browser member the code picks has no argument that begins with
    the flag. *)
Definition no_debug_port (g : ProcessGroup) : Prop :=
  (forall p, p ∈ processes g -> process_type p <> "Browser") \/
  (exists b, find_browser (processes g) = Some b /\
             forall a, a ∈ cmd_args b -> startsWith a port_flag = false).

(** The answer has nothing for the port the group declares. *)
Definition no_data_for (portMap : PortMap) (g : ProcessGroup) : Prop :=
  exists b port, find_browser (processes g) = Some b /\
    port_of b = Some port /\
    (portMap !! port = None \/ portMap !! port = Some []).

(** The records of a list that have the pid and a URL all show the same URL
    and type (as they do when a pid names one record). *)
Definition agree_on (p : Z) (u t : string) (recs : list ProcessInfo) : Prop :=
  forall q, q ∈ recs -> pid q = p -> url q <> "" ->
            url q = u /\ cdp_target_type q = t.

(** Every record with the pid holds the given URL and type, and there is
    one. *)
Definition holds_url (p : Z) (u t : string) (gs : list ProcessGroup) : Prop :=
  (exists r, r ∈ all_records gs /\ pid r = p) /\
  forall r, r ∈ all_records gs -> pid r = p -> url r = u /\ cdp_target_type r = t.

(** No entry of the answer names the pid. *)
Definition silent_on (p : Z) (portMap : option PortMap) : Prop :=
  forall m port pages e, portMap = Some m -> m !! port = Some pages ->
    e ∈ pages -> process_id e <> Some p.

(** An event during which a pid stays in the snapshot and the debug
    endpoint says nothing about it. *)
Definition quiet_for (p : Z) (e : event) : Prop :=
  match e with
  | SnapshotOk _ _ data => exists r, r ∈ all_records data /\ pid r = p
  | CdpOk _ portMap => silent_on p portMap
  | _ => True
  end.

(** The list of a cycle has been published in the course of a trace. *)
Definition published (cycle : nat) (tr : list event) : Prop :=
  exists showLoading data, SnapshotOk cycle showLoading data ∈ tr.

(** The answer of a cycle, arriving at the end of a trace, is dropped. *)
Definition discarded (tr : list event) (cycle : nat) (portMap : option PortMap)
    (v : View) : Prop :=
  groups (run (tr ++ [CdpOk cycle portMap]) v) = groups (run tr v).

(** The status card is on screen: [statusMsg && ...] in the render. *)
Definition status_shown (v : View) : Prop := statusMsg v <> "".

(** ** The rest of the view

    The functions of [ProcessesTab.tsx] around the refresh: what a row and
    a group header show, which groups the filter buttons let through, and
    the handlers of the user's clicks. *)

(** [s.slice(n)] *)
Fixpoint string_drop (n : nat) (s : string) : string :=
  match n, s with
  | O, _ => s
  | S n', String _ rest => string_drop n' rest
  | S _, EmptyString => EmptyString
  end.

(** [s.replace(pat, rep)] for a string pattern: the first occurrence. *)
Fixpoint replace_first (pat rep s : string) : string :=
  if String.prefix pat s then rep +:+ string_drop (String.length pat) s
  else match s with
       | EmptyString => EmptyString
       | String c rest => String c (replace_first pat rep rest)
       end.

(** The character occurs in the string. *)
Fixpoint has_char (c : ascii) (s : string) : bool :=
  match s with
  | EmptyString => false
  | String a rest => Ascii.eqb a c || has_char c rest
  end.

Definition sub_type_flag : string := "--utility-sub-type=".

(** [getProcessDetail] *)
Definition getProcessDetail (proc : ProcessInfo) : string :=
  if truthy_str (url proc) then url proc
  else if str_eqb (process_type proc) "Utility" then
    match find (fun a => startsWith a sub_type_flag) (cmd_args proc) with
    | Some sub =>
        if truthy_str sub then
          let val := replace_first sub_type_flag "" sub in
          let parts := split "." val in
          if (1 <? length parts)%nat then List.last parts "" else val
        else ""
    | None => ""
    end
  else "".

(** [list.includes(x)] *)
Definition includes (l : list string) (x : string) : bool := existsb (str_eqb x) l.

Definition ALL_INSTANCE_TYPES : list string :=
  ["Stable"; "Beta"; "Dev"; "Canary"; "Internal"; "WebView2"; "Copilot"].

(** [getGroupLabel] *)
Definition getGroupLabel (group : ProcessGroup) : string :=
  if str_eqb (group_instance_type group) "WebView2" then "WebView2"
  else if str_eqb (group_instance_type group) "Copilot" then "Copilot"
  else channel group.

(** [hasRemoteDebugging] *)
Definition hasRemoteDebugging (group : ProcessGroup) : bool :=
  match find_browser (processes group) with
  | None => false
  | Some browser => existsb (fun a => startsWith a port_flag) (cmd_args browser)
  end.

(** The predicate of the count on a filter button:
    [getGroupLabel(g) === type || (type === "Stable" && ![...].includes(getGroupLabel(g)))] *)
Definition counted_under (type : string) (g : ProcessGroup) : bool :=
  str_eqb (getGroupLabel g) type ||
  (str_eqb type "Stable" &&
   negb (includes ["Beta"; "Dev"; "Canary"; "Internal"; "WebView2"; "Copilot"]
                  (getGroupLabel g))).

(** The number a filter button shows. *)
Definition type_count (gs : list ProcessGroup) (type : string) : nat :=
  length (List.filter (counted_under type) gs).

(** The predicate of [groups.filter] in the render: is the group listed. *)
Definition group_visible (hiddenTypes : gset string) (group : ProcessGroup) : bool :=
  let label := getGroupLabel group in
  if bool_decide (label ∈ hiddenTypes) then false
  else if negb (includes ["WebView2"; "Copilot"; "Beta"; "Dev"; "Canary"; "Internal"]
                         label)
          && bool_decide ("Stable" ∈ hiddenTypes) then false
  else true.

(** [const next = new Set(prev); if (next.has(x)) next.delete(x); else next.add(x)] *)
Definition toggle_member `{Countable K} (x : K) (prev : gset K) : gset K :=
  if bool_decide (x ∈ prev) then prev ∖ {[x]} else prev ∪ {[x]}.

(** [toggleGroup] *)
Definition toggleGroup (p : Z) (v : View) : View :=
  set_expanded (toggle_member p (expandedGroups v)) v.

(** The click handler of a filter button, on the set of hidden types. *)
Definition toggleHiddenType (type : string) (prev : gset string) : gset string :=
  toggle_member type prev.

(** What [loadHiddenTypes] returns when nothing is stored. *)
Definition default_hidden : gset string := {["WebView2"]}.

(** The hidden types after a sequence of button clicks. *)
Definition after_clicks (clicks : list string) (hidden : gset string) : gset string :=
  foldl (fun h t => toggleHiddenType t h) hidden clicks.

(** The predicate of the filter on the arguments column. *)
Definition arg_listed (a : string) : bool :=
  startsWith a "--" && negb (startsWith a "--type=") &&
  negb (startsWith a "--mojo") && negb (startsWith a "--field-trial") &&
  negb (startsWith a "--remote-debugging-port") &&
  negb (startsWith a "--subproc-heap-profiling") &&
  negb (startsWith a "--utility-sub-type").

(** [proc.cmd_args.slice(1).filter(...).slice(0, 3)] *)
Definition args_listed (proc : ProcessInfo) : list string :=
  take 3 (List.filter arg_listed (drop 1 (cmd_args proc))).

(** The text of the arguments cell: [....join(" ")]. *)
Definition args_cell (proc : ProcessInfo) : string :=
  String.concat " " (args_listed proc).


(** How a backend command for a process ended. *)
Inductive outcome :=
  | Resolved (result : string)
  | Rejected (err : string).

Definition set_status (msg : string) (v : View) : View :=
  {| groups := groups v; loading := loading v;
     expandedGroups := expandedGroups v; statusMsg := msg;
     console := console v; cdp_calls := cdp_calls v |}.

(** [handleDebug], once [debug_process] has ended. *)
Definition handleDebug (o : outcome) (v : View) : View :=
  match o with
  | Resolved result => set_status result v
  | Rejected err => set_status ("Error: " +:+ err) v
  end.

(** [handleTerminate], once [terminate_process] has ended; the refresh it
    schedules after a result is a later [Started _ false]. *)
Definition handleTerminate (o : outcome) (v : View) : View :=
  match o with
  | Resolved result => set_status result v
  | Rejected err => set_status ("Error: " +:+ err) v
  end.

(** The Dismiss button: [setStatusMsg("")]. *)
Definition dismiss (v : View) : View := set_status "" v.

(** The snapshot most recently fetched in the course of a trace. *)
Definition last_snapshot (tr : list event) (init : list ProcessGroup)
  : list ProcessGroup :=
  foldl (fun cur e => match e with SnapshotOk _ _ data => data | _ => cur end)
        init tr.

(** The event belongs to a timer-driven cycle or is the end of a debug
    query. *)
Definition timer_driven (e : event) : Prop :=
  match e with
  | Started _ showLoading | SnapshotOk _ showLoading _
  | SnapshotFailed _ showLoading _ => showLoading = false
  | CdpOk _ _ | CdpFailed _ => True
  end.

(** How many snapshots a trace fetched. *)
Definition snapshots_fetched (tr : list event) : nat :=
  length (List.filter (fun e => match e with SnapshotOk _ _ _ => true | _ => false end) tr).

(** How many snapshot queries of a trace were rejected. *)
Definition snapshots_failed (tr : list event) : nat :=
  length (List.filter (fun e => match e with SnapshotFailed _ _ _ => true | _ => false end) tr).

(** ** Looking a port up in the answer

    The answer is a plain JS object, so [portMap[port]] also finds what
    every object inherits from [Object.prototype]. For a port text that
    names an inherited property and is no key of the answer, [portMap[port]]
    is a function (or the prototype object): it is truthy, it has no [find],
    and [pages.find(...)] throws a [TypeError] inside the state updater. No
    error boundary is around the view, so React then takes the view down. *)

(** The property names of [Object.prototype]. *)
Definition inherited_names : list string :=
  ["constructor"; "__defineGetter__"; "__defineSetter__"; "hasOwnProperty";
   "__lookupGetter__"; "__lookupSetter__"; "isPrototypeOf";
   "propertyIsEnumerable"; "toString"; "valueOf"; "__proto__";
   "toLocaleString"].

(** What [portMap[port]] evaluates to: [undefined], the array stored under
    the port, or an inherited property. *)
Inductive port_entry :=
  | NoEntry
  | Entry (pages : list CdpEntry)
  | Inherited.

(** [portMap[port]]: own keys first, then the prototype's. *)
Definition portMap_get (portMap : PortMap) (port : string) : port_entry :=
  match portMap !! port with
  | Some pages => Entry pages
  | None => if includes inherited_names port then Inherited else NoEntry
  end.

(** The callback of [prev.map] throws on this group: the port text is
    truthy and [portMap[port]] is an inherited property, so the guard
    [!port || !portMap[port]] lets it through and [pages.find] is called on
    something that has none. The group has a member (its Browser), so the
    callback of [group.processes.map] does run. *)
Definition group_throws (portMap : PortMap) (group : ProcessGroup) : bool :=
  match find_browser (processes group) with
  | Some browser =>
      match port_of browser with
      | Some port =>
          truthy_str port &&
          match portMap_get portMap port with Inherited => true | _ => false end
      | None => false
      end
  | None => false
  end.

(** The updater throws: one of the callbacks of [prev.map] does. *)
Definition updater_throws (portMap : PortMap) (prev : list ProcessGroup) : bool :=
  existsb (group_throws portMap) prev.

(** The callback an event stands for throws. Only the updater of a
    non-empty answer can. *)
Definition throws (e : event) (v : View) : bool :=
  match e with
  | CdpOk _ (Some m) => negb (no_ports (Some m)) && updater_throws m (groups v)
  | _ => false
  end.

(** One event on the mounted view: [None] when its callback throws, the
    view of [step] when it returns. *)
Definition try_step (e : event) (v : View) : option View :=
  if throws e v then None else Some (step e v).

(** A sequence of events, oldest first, each of which returns. *)
Fixpoint try_run (tr : list event) (v : View) : option View :=
  match tr with
  | [] => Some v
  | e :: rest => v' ← try_step e v; try_run rest v'
  end.

(** ** The ports the backend queries

    [get_cdp_urls] is answered by the backend ([processes.rs]), which is not
    among the sources at hand; the view invokes it without arguments, once
    for every snapshot it has fetched, and only reads the answer. *)

(** Modelled from the spec: the port discovery of the backend command
    [get_cdp_urls], step 1 of section 4.3, "for each ProcessGroup, inspect
    the Browser-role root's command line for a fixed debugging-port flag; if
    absent, the group is not queried". The Browser member and the port text
    are picked as the view picks them. *)
Definition declared_port (group : ProcessGroup) : option string :=
  browser ← find_browser (processes group); port_of browser.

(** Modelled from the spec: the queries of the backend command
    [get_cdp_urls], step 2 of section 4.3, "for each distinct port found,
    issue one query". The ports queried for a list of groups, each once. *)
Definition ports_queried (gs : list ProcessGroup) : list string :=
  remove_dups (omap declared_port gs).

(** ** Further predicates used in the statements *)

(** No snapshot is published in the course of the events. *)
Definition no_publication (tr : list event) : Prop :=
  Forall (fun e => match e with SnapshotOk _ _ _ => False | _ => True end) tr.

(** Position by position, the list on the right shows the records of the
    list on the left, those with the pid under the given URL and type. *)
Definition carried_onto (p : Z) (u t : string) (data shown : list ProcessGroup)
  : Prop :=
  Forall2 (fun g g' =>
             Forall2 (fun r r' => pid r = p -> r' = with_debug r u t)
                     (processes g) (processes g'))
          data shown.

(** A record after the patch of its group: the record as it was, or the
    record with the URL and type of an entry that is listed under the
    group's port and whose process id is the record's pid. *)
Definition patched_from (portMap : option PortMap) (g : ProcessGroup)
    (r r' : ProcessInfo) : Prop :=
  r' = r \/
  exists m pages e,
    portMap = Some m /\ pages_for m (processes g) = Some pages /\
    e ∈ pages /\ process_id e = Some (pid r) /\
    r' = with_debug r (entry_url e) (or_empty (target_type e)).

(** ** Sample data

    A browser (pid 100) started with the given extra arguments and its
    renderer (pid 101), with the debug fields given for the renderer. *)

Definition proc_100 (args : list string) : ProcessInfo :=
  {| pid := 100; parent_pid := None; name := "msedge.exe";
     exe_path := "C:\Edge SxS\msedge.exe"; cmd_args := "msedge.exe" :: args;
     process_type := "Browser"; memory_mb := (double 365 (-1));
     cpu_percent := (double 1 (-1)); url := ""; cdp_target_type := "";
     instance_type := "Canary" |}.

Definition proc_101 (u t : string) : ProcessInfo :=
  {| pid := 101; parent_pid := Some 100; name := "msedge.exe";
     exe_path := "C:\Edge SxS\msedge.exe";
     cmd_args := ["msedge.exe"; "--type=renderer"];
     process_type := "Renderer"; memory_mb := (double 257 (-2));
     cpu_percent := (double 3 (-1)); url := u; cdp_target_type := t;
     instance_type := "Canary" |}.

Definition group_100 (args : list string) (u t : string) : ProcessGroup :=
  {| browser_pid := 100; browser_exe := "C:\Edge SxS\msedge.exe";
     channel := "Canary"; group_instance_type := "Canary"; host_app := "";
     processes := [proc_100 args; proc_101 u t] |}.

Definition debug_args : list string := ["--remote-debugging-port=9222"].

Definition page_101 : CdpEntry :=
  {| process_id := Some 101; entry_url := "https://example.com";
     target_type := Some "page" |}.

Definition answer_9222 (pages : list CdpEntry) : PortMap := {[ "9222" := pages ]}.

(** A second target hosted by the renderer 101. *)
Definition frame_101 : CdpEntry :=
  {| process_id := Some 101; entry_url := "https://ads.example.net/frame";
     target_type := Some "iframe" |}.


(** Two cycles publish the same browser and renderer, the second one
    timer-driven, and neither answer of the debug endpoint has arrived. *)
Definition two_cycles : list event :=
  [Started 0 true; SnapshotOk 0 true [group_100 debug_args "" ""];
   Started 1 false; SnapshotOk 1 false [group_100 debug_args "" ""]].

(** A view that shows one group and nothing else. *)
Definition showing (g : ProcessGroup) : View :=
  set_loading false (set_groups [g] initial_view).

(** The renderer's URL is known; then two timer cycles pass in which the
    snapshot still has the renderer and the debug endpoint fails or has
    nothing. *)
Definition two_quiet_cycles : list event :=
  [Started 1 false; SnapshotOk 1 false [group_100 debug_args "" ""]; CdpFailed 1;
   Started 2 false; SnapshotOk 2 false [group_100 debug_args "" ""];
   CdpOk 2 (Some ∅)].

(** A member of the browser 100 of a given type. *)
Definition member (n : Z) (type : string) : ProcessInfo :=
  {| pid := n; parent_pid := Some 100; name := "msedge.exe";
     exe_path := "C:\Edge SxS\msedge.exe";
     cmd_args := ["msedge.exe"; "--type=" +:+ toLowerCase type];
     process_type := type; memory_mb := (double 32 0); cpu_percent := (double 0 0);
     url := ""; cdp_target_type := ""; instance_type := "Canary" |}.

(** The snapshot of the specification's scenario: a browser, its renderer,
    and a helper whose parent 999 is gone. *)
Definition helper_102 : ProcessInfo :=
  {| pid := 102; parent_pid := Some 999; name := "helper.exe";
     exe_path := "helper.exe"; cmd_args := ["--type=utility"];
     process_type := "Utility"; memory_mb := (double 8 0); cpu_percent := (double 0 0);
     url := ""; cdp_target_type := ""; instance_type := "Canary" |}.

Definition snapshot_3 : list ProcessInfo :=
  [proc_100 []; proc_101 "" ""; helper_102].

(** The published list as objects: the array, the one group in it, the
    group's array of processes, and the two process objects. *)
Definition objects_100 (u t : string) : Objects.GroupArray :=
  Objects.mkObj 0
    [Objects.mkObj 1
       (with_processes (group_100 debug_args u t)
          (Objects.mkObj 2 [Objects.mkObj 3 (proc_100 debug_args);
                            Objects.mkObj 4 (proc_101 u t)]))].

(** A utility process hosting the network service. *)
Definition utility_103 : ProcessInfo :=
  {| pid := 103; parent_pid := Some 100; name := "msedge.exe";
     exe_path := "C:\Edge SxS\msedge.exe";
     cmd_args := ["msedge.exe"; "--type=utility";
                  "--utility-sub-type=network.mojom.NetworkService";
                  "--lang=en-US"; "--service-sandbox-type=none";
                  "--no-pre-read-main-dll"; "--field-trial-handle=1234";
                  "--metrics-shmem-handle=5678"];
     process_type := "Utility"; memory_mb := double 32 0;
     cpu_percent := double 0 0; url := ""; cdp_target_type := "";
     instance_type := "Canary" |}.

(** A browser started with a debugging port that is no number but the name
    of a property every JS object inherits. *)
Definition constructor_args : list string :=
  ["--remote-debugging-port=constructor"].

(** The members of a group as the builder orders them, an extension among
    them. *)
Definition members_with_extension : list ProcessInfo :=
  [member 100 "Browser"; member 4 "Renderer"; member 5 "Extension";
   member 6 "GPU"].

(** * Properties *)

(** ** Strings and records *)

Lemma str_eqb_true (a b : string) : str_eqb a b = true <-> a = b.
Proof. apply String.eqb_eq. Qed.

Lemma str_eqb_false (a b : string) : str_eqb a b = false <-> a <> b.
Proof. apply String.eqb_neq. Qed.

Lemma str_eqb_refl (a : string) : str_eqb a a = true.
Proof. apply String.eqb_refl. Qed.

Lemma truthy_str_true (s : string) : truthy_str s = true <-> s <> "".
Proof. destruct s; simpl; split; congruence. Qed.

Lemma truthy_str_false (s : string) : truthy_str s = false <-> s = "".
Proof. destruct s; simpl; split; congruence. Qed.

Lemma with_debug_same (p : ProcessInfo) :
  with_debug p (url p) (cdp_target_type p) = p.
Proof. by destruct p. Qed.

Lemma with_processes_same (g : ProcessGroup) : with_processes g (processes g) = g.
Proof. by destruct g. Qed.

Example split_port :
  split "=" "--remote-debugging-port=9222" = ["--remote-debugging-port"; "9222"].
Proof. reflexivity. Qed.

Example split_port_twice :
  split "=" "--remote-debugging-port=9222=x" !! 1%nat = Some "9222".
Proof. reflexivity. Qed.

Example split_port_blank :
  split "=" "--remote-debugging-port=" = ["--remote-debugging-port"; ""].
Proof. reflexivity. Qed.

(** ** The patch, read as a plain map *)

Lemma entry_differs_false proc m : entry_differs proc m = false <-> carries proc m.
Proof.
  unfold entry_differs, carries.
  rewrite orb_false_iff, !negb_false_iff, !str_eqb_true. intuition congruence.
Qed.

Lemma entry_differs_true proc m : entry_differs proc m = true <-> ~ carries proc m.
Proof.
  rewrite <- entry_differs_false. destruct (entry_differs proc m); intuition congruence.
Qed.

Lemma patch_proc_snd pages proc : snd (patch_proc pages proc) = patched pages proc.
Proof.
  unfold patch_proc, patched, match_for.
  destruct (find _ pages) as [m|]; [|done].
  destruct (entry_differs proc m) eqn:E; [done|].
  apply entry_differs_false in E as [<- <-]. simpl. by rewrite with_debug_same.
Qed.

Lemma patch_proc_fst pages proc :
  fst (patch_proc pages proc) = true <->
  exists m, match_for pages proc = Some m /\ ~ carries proc m.
Proof.
  unfold patch_proc, match_for.
  destruct (find _ pages) as [m|]; simpl.
  - destruct (entry_differs proc m) eqn:E; simpl.
    + apply entry_differs_true in E. split; [eauto | done].
    + apply entry_differs_false in E. split; [done|].
      intros (m' & [= <-] & Hn). by destruct Hn.
  - split; [done | by intros (? & ? & _)].
Qed.

Lemma patch_proc_unflagged pages proc :
  fst (patch_proc pages proc) = false -> snd (patch_proc pages proc) = proc.
Proof.
  unfold patch_proc. destruct (find _ pages) as [m|]; [|done].
  by destruct (entry_differs proc m).
Qed.

Lemma map_snd_unflagged pages (procs : list ProcessInfo) :
  existsb fst (map (patch_proc pages) procs) = false ->
  map snd (map (patch_proc pages) procs) = procs.
Proof.
  induction procs as [|p procs IH]; simpl; [done|].
  rewrite orb_false_iff. intros [H1 H2].
  by rewrite patch_proc_unflagged, IH.
Qed.

Lemma patch_group_snd portMap group :
  snd (patch_group portMap group) = patched_group portMap group.
Proof.
  unfold patch_group, patched_group.
  destruct (pages_for portMap (processes group)) as [pages|]; [|done].
  assert (Hm : map snd (map (patch_proc pages) (processes group))
               = map (patched pages) (processes group)).
  { rewrite map_map. apply map_ext. intros. apply patch_proc_snd. }
  destruct (existsb _ _) eqn:E; simpl; [by rewrite Hm|].
  rewrite <- Hm, (map_snd_unflagged _ _ E). by rewrite with_processes_same.
Qed.

Lemma patch_group_unflagged portMap group :
  fst (patch_group portMap group) = false -> snd (patch_group portMap group) = group.
Proof.
  unfold patch_group. destruct (pages_for _ _); [|done].
  by destruct (existsb _ _).
Qed.

Lemma groups_unflagged portMap (gs : list ProcessGroup) :
  existsb fst (map (patch_group portMap) gs) = false ->
  map snd (map (patch_group portMap) gs) = gs.
Proof.
  induction gs as [|g gs IH]; simpl; [done|].
  rewrite orb_false_iff. intros [H1 H2].
  by rewrite patch_group_unflagged, IH.
Qed.

Lemma apply_cdp_snd portMap prev :
  snd (apply_cdp portMap prev) = map (patched_group portMap) prev.
Proof.
  unfold apply_cdp. cbn [snd].
  assert (Hm : map snd (map (patch_group portMap) prev)
               = map (patched_group portMap) prev).
  { rewrite map_map. apply map_ext. intros. apply patch_group_snd. }
  destruct (existsb _ _) eqn:E; [done|].
  by rewrite <- Hm, groups_unflagged.
Qed.

Lemma find_none_iff {A} (f : A -> bool) (l : list A) :
  find f l = None <-> forall x, x ∈ l -> f x = false.
Proof.
  split.
  - intros H x Hx. apply list_elem_of_In in Hx. by eapply find_none.
  - intros H. induction l as [|y l IH]; simpl; [done|].
    rewrite (H y) by left. apply IH. intros x Hx. apply H. by right.
Qed.

Lemma pages_for_no_port portMap (g : ProcessGroup) :
  no_debug_port g -> pages_for portMap (processes g) = None.
Proof.
  unfold pages_for, find_browser. intros [Hno | (b & Hb & Hargs)].
  - assert (find (fun p => str_eqb (process_type p) "Browser") (processes g) = None)
      as ->; [|done].
    apply find_none_iff. intros p Hp. apply str_eqb_false. by apply Hno.
  - unfold find_browser in Hb. rewrite Hb. simpl. unfold port_of, port_arg.
    assert (find (fun a => startsWith a port_flag) (cmd_args b) = None) as ->; [|done].
    by apply find_none_iff.
Qed.

Lemma pages_for_no_data portMap (g : ProcessGroup) :
  no_data_for portMap g ->
  pages_for portMap (processes g) = None \/
  pages_for portMap (processes g) = Some [].
Proof.
  intros (b & port & Hb & Hp & Hm). unfold pages_for. rewrite Hb. simpl.
  rewrite Hp. simpl. destruct (truthy_str port); [|by left].
  destruct Hm as [-> | ->]; auto.
Qed.

Lemma patched_same_but_debug pages proc : same_but_debug proc (patched pages proc).
Proof.
  unfold patched. destruct (match_for pages proc); repeat split.
Qed.

Lemma patched_group_same_frame portMap g : same_frame g (patched_group portMap g).
Proof.
  unfold patched_group.
  destruct (pages_for portMap (processes g)) as [pages|].
  - repeat split. simpl. apply Forall2_fmap_r, Forall_Forall2_diag, Forall_forall.
    intros. apply patched_same_but_debug.
  - repeat split. apply Forall_Forall2_diag, Forall_forall. by repeat split.
Qed.

Lemma same_frame_refl g : same_frame g g.
Proof.
  repeat split. apply Forall_Forall2_diag, Forall_forall. by repeat split.
Qed.

(** What a resolved debug query does to the published list. *)
Lemma groups_step_cdp cycle portMap v :
  groups (step (CdpOk cycle portMap) v) =
  match portMap with
  | Some m => map (patched_group m) (groups v)
  | None => groups v
  end.
Proof.
  destruct portMap as [m|]; [|done]. simpl.
  case_bool_decide as Hm; simpl; [|apply apply_cdp_snd].
  subst m. symmetry. erewrite map_ext; [apply map_id|].
  intros g. unfold patched_group, pages_for.
  destruct (find_browser _) as [b|]; [|done]. simpl.
  destruct (port_of b) as [port|]; [|done]. simpl.
  destruct (truthy_str port); [|done]. by rewrite lookup_empty.
Qed.

(** A resolved or failed debug query touches nothing but the list. *)
Lemma step_cdp_rest cycle portMap v :
  let v' := step (CdpOk cycle portMap) v in
  loading v' = loading v /\ expandedGroups v' = expandedGroups v /\
  statusMsg v' = statusMsg v /\ console v' = console v /\
  cdp_calls v' = cdp_calls v.
Proof.
  destruct portMap as [m|]; [|done]. simpl. by case_bool_decide.
Qed.

Lemma step_cdp_same_frame cycle portMap v :
  Forall2 same_frame (groups v) (groups (step (CdpOk cycle portMap) v)).
Proof.
  rewrite groups_step_cdp. destruct portMap as [m|].
  - apply Forall2_fmap_r, Forall_Forall2_diag, Forall_forall.
    intros. apply patched_group_same_frame.
  - apply Forall_Forall2_diag, Forall_forall. intros. apply same_frame_refl.
Qed.

(** *** Events whose callback returns *)

Lemma try_step_some e v v' :
  try_step e v = Some v' -> throws e v = false /\ v' = step e v.
Proof. unfold try_step. destruct (throws e v); [done|]. by intros [= <-]. Qed.

Lemma try_step_returns e v : throws e v = false -> try_step e v = Some (step e v).
Proof. unfold try_step. by intros ->. Qed.

Lemma try_run_some tr v v' : try_run tr v = Some v' -> v' = run tr v.
Proof.
  revert v. induction tr as [|e tr IH]; intros v; simpl; [by intros [= <-]|].
  destruct (try_step e v) as [v1|] eqn:He; simpl; [|done].
  apply try_step_some in He as [_ ->]. apply IH.
Qed.

Lemma try_run_app tr tr' v : try_run (tr ++ tr') v = try_run tr v ≫= try_run tr'.
Proof.
  revert v. induction tr as [|e tr IH]; intros v; simpl; [done|].
  destruct (try_step e v) as [v1|]; simpl; [apply IH | done].
Qed.

(** The updater throws exactly when the answer lists some port and a group
    of the list declares a port text that is no key of the answer but the
    name of an inherited property. *)
Lemma throws_iff cycle m v :
  throws (CdpOk cycle (Some m)) v = true <->
  m <> ∅ /\
  exists g b port, g ∈ groups v /\ find_browser (processes g) = Some b /\
    port_of b = Some port /\ m !! port = None /\ port ∈ inherited_names.
Proof.
  unfold throws, no_ports, updater_throws.
  rewrite andb_true_iff, negb_true_iff, bool_decide_eq_false, existsb_exists.
  apply and_iff_compat_l. split.
  - intros (g & Hg & Ht). exists g. unfold group_throws, portMap_get in Ht.
    destruct (find_browser (processes g)) as [b|] eqn:Hb; [|done].
    destruct (port_of b) as [port|] eqn:Hp; [|done].
    apply andb_true_iff in Ht as [_ Ht].
    destruct (m !! port) eqn:Hport; [done|].
    destruct (includes inherited_names port) eqn:Hi; [|done].
    exists b, port. split; [by apply list_elem_of_In|].
    split; [done|]. split; [done|]. split; [done|].
    unfold includes in Hi. apply existsb_exists in Hi as (x & Hx & Heq).
    apply str_eqb_true in Heq. subst x. by apply list_elem_of_In.
  - intros (g & b & port & Hg & Hb & Hp & Hport & Hi). exists g.
    split; [by apply list_elem_of_In|].
    assert (Hinc : includes inherited_names port = true).
    { unfold includes. apply existsb_exists. exists port.
      split; [by apply list_elem_of_In | apply str_eqb_refl]. }
    unfold group_throws, portMap_get. rewrite Hb, Hp, Hport, Hinc.
    rewrite andb_true_r. apply truthy_str_true. intros ->.
    apply list_elem_of_In in Hi. simpl in Hi. intuition discriminate.
Qed.

(** Where the callback on a group returns, the pages it reads are those of
    [pages_for]. *)
Lemma pages_for_get m (g : ProcessGroup) b port :
  find_browser (processes g) = Some b -> port_of b = Some port -> port <> "" ->
  match portMap_get m port with
  | Entry pages => pages_for m (processes g) = Some pages /\ group_throws m g = false
  | NoEntry => pages_for m (processes g) = None /\ group_throws m g = false
  | Inherited => group_throws m g = true
  end.
Proof.
  intros Hb Hp Hne. apply truthy_str_true in Hne.
  unfold pages_for, group_throws, portMap_get.
  rewrite Hb. cbn [mbind option_bind]. rewrite Hp. cbn [mbind option_bind].
  generalize (includes inherited_names port). intros inherited.
  rewrite Hne. destruct (m !! port); [done|]. by destruct inherited.
Qed.

Lemma patched_patched_from m (g : ProcessGroup) pages r :
  pages_for m (processes g) = Some pages ->
  patched_from (Some m) g r (patched pages r).
Proof.
  intros Hpages. unfold patched.
  destruct (match_for pages r) as [e|] eqn:He; [|by left].
  right. exists m, pages, e. unfold match_for in He.
  apply find_some in He as [Hin Hmatch].
  unfold entry_matches in Hmatch. apply andb_true_iff in Hmatch as [_ Hmatch].
  destruct (process_id e) as [z|] eqn:Hz; [|done].
  apply Z.eqb_eq in Hmatch. subst z.
  repeat split; try done. by apply list_elem_of_In.
Qed.

Lemma step_cdp_patched_from cycle portMap v :
  Forall2 (fun g g' => Forall2 (patched_from portMap g) (processes g) (processes g'))
          (groups v) (groups (step (CdpOk cycle portMap) v)).
Proof.
  rewrite groups_step_cdp. destruct portMap as [m|].
  - apply Forall2_fmap_r, Forall_Forall2_diag, Forall_forall. intros g _.
    cbn beta. unfold compose, patched_group.
    destruct (pages_for m (processes g)) as [pages|] eqn:Hpages.
    + simpl. apply Forall2_fmap_r, Forall_Forall2_diag, Forall_forall.
      intros r _. by apply patched_patched_from.
    + apply Forall_Forall2_diag, Forall_forall. intros r _. by left.
  - apply Forall_Forall2_diag, Forall_forall. intros g _.
    apply Forall_Forall2_diag, Forall_forall. intros r _. by left.
Qed.

(** C6: where the updater returns, applying a debug-endpoint answer changes
    nothing but the two debug fields of records whose pid an entry names:
    the published groups keep their number and order, every group keeps its
    group-level fields and its members position by position, and every
    member keeps pid, parent_pid, name, exe_path, cmd_args, memory_mb,
    cpu_percent, process_type and instance_type; a member comes out as it
    was, debug fields included, unless the answer lists, under the port of
    its group, an entry whose process id is the member's pid, and then it
    comes out with that entry's URL and target type; the rest of the view
    is untouched as well. *)
Theorem cdp_patch_frame (cycle : nat) (portMap : option PortMap) (v v' : View)
    (Hstep : try_step (CdpOk cycle portMap) v = Some v') :
  length (groups v') = length (groups v) /\
  Forall2 same_frame (groups v) (groups v') /\
  Forall2 (fun g g' => Forall2 (patched_from portMap g) (processes g) (processes g'))
          (groups v) (groups v') /\
  loading v' = loading v /\ expandedGroups v' = expandedGroups v /\
  statusMsg v' = statusMsg v /\ console v' = console v /\
  cdp_calls v' = cdp_calls v.
Proof.
  apply try_step_some in Hstep as [_ ->].
  pose proof (step_cdp_same_frame cycle portMap v) as HF.
  split; [symmetry; by eapply Forall2_length|].
  split; [done|]. split; [apply step_cdp_patched_from | apply step_cdp_rest].
Qed.

(** The answer for port 9222 names the renderer 101 and not the browser
    100: the browser's record comes out as it was and the renderer's with
    the entry's URL and type. *)
Lemma cdp_patch_frame_witness :
  Forall2 (fun g g' =>
             Forall2 (patched_from (Some (answer_9222 [page_101])) g)
                     (processes g) (processes g'))
          [group_100 debug_args "" ""]
          [group_100 debug_args "https://example.com" "page"].
Proof.
  exact (proj1 (proj2 (proj2
    (cdp_patch_frame 1 (Some (answer_9222 [page_101]))
       (showing (group_100 debug_args "" ""))
       (showing (group_100 debug_args "https://example.com" "page"))
       eq_refl)))).
Defined.

Lemma patched_group_no_pages portMap g :
  pages_for portMap (processes g) = None -> patched_group portMap g = g.
Proof. unfold patched_group. by intros ->. Qed.

Lemma patched_nil proc : patched [] proc = proc.
Proof. done. Qed.

Lemma patched_group_empty_pages portMap g :
  pages_for portMap (processes g) = Some [] -> patched_group portMap g = g.
Proof.
  unfold patched_group. intros ->.
  erewrite map_ext; [rewrite map_id; apply with_processes_same|].
  intros. apply patched_nil.
Qed.

Lemma declared_port_no_port (g : ProcessGroup) :
  no_debug_port g -> declared_port g = None.
Proof.
  unfold declared_port, find_browser. intros [Hno | (b & Hb & Hargs)].
  - assert (find (fun p => str_eqb (process_type p) "Browser") (processes g) = None)
      as ->; [|done].
    apply find_none_iff. intros p Hp. apply str_eqb_false. by apply Hno.
  - unfold find_browser in Hb. rewrite Hb. simpl. unfold port_of, port_arg.
    assert (find (fun a => startsWith a port_flag) (cmd_args b) = None) as ->; [|done].
    by apply find_none_iff.
Qed.

Lemma group_throws_no_port m (g : ProcessGroup) :
  declared_port g = None -> group_throws m g = false.
Proof.
  unfold declared_port, group_throws.
  destruct (find_browser (processes g)) as [b|]; simpl; [|done]. by intros ->.
Qed.

Lemma ports_queried_delete (gs : list ProcessGroup) i g :
  gs !! i = Some g -> declared_port g = None ->
  ports_queried (delete i gs) = ports_queried gs.
Proof.
  intros Hg Hnone. unfold ports_queried. f_equal.
  rewrite <- (take_drop_middle gs i g Hg) at 2.
  rewrite delete_take_drop, !omap_app. simpl. by rewrite Hnone.
Qed.

(** C8: a group with no member of type Browser, or whose Browser member has
    no argument beginning with [--remote-debugging-port=], declares no port
    to the backend, and the ports queried for the published list are those
    queried for the list without the group; in the view, where the updater
    returns, the group is looked up under no port, is handed back by the
    patch as it is with the change flag down, and so stands unpatched at
    its place in the published list. *)
Theorem no_port_not_patched (cycle : nat) (m : PortMap) (v v' : View)
    (i : nat) (g : ProcessGroup)
    (Hg : groups v !! i = Some g) (Hport : no_debug_port g)
    (Hstep : try_step (CdpOk cycle (Some m)) v = Some v') :
  declared_port g = None /\
  ports_queried (groups v) = ports_queried (delete i (groups v)) /\
  pages_for m (processes g) = None /\
  group_throws m g = false /\
  patch_group m g = (false, g) /\
  groups v' !! i = Some g.
Proof.
  apply try_step_some in Hstep as [_ ->].
  pose proof (pages_for_no_port m g Hport) as Hnone.
  pose proof (declared_port_no_port g Hport) as Hdecl.
  split; [done|]. split; [symmetry; by eapply ports_queried_delete|].
  split; [done|]. split; [by apply group_throws_no_port|]. split.
  - unfold patch_group. by rewrite Hnone.
  - rewrite groups_step_cdp, list_lookup_fmap, Hg. simpl.
    by rewrite patched_group_no_pages.
Qed.

(** A browser started without the flag next to one started with it: the
    ports queried are those of the second group alone; the answer for port
    9222 names the renderer 101, which both groups have, and the group
    without the flag is handed back untouched. *)
Lemma no_port_not_patched_witness :
  ports_queried [group_100 [] "" ""; group_100 debug_args "" ""]
    = ports_queried [group_100 debug_args "" ""] /\
  patch_group (answer_9222 [page_101]) (group_100 [] "" "")
    = (false, group_100 [] "" "") /\
  groups (step (CdpOk 0 (Some (answer_9222 [page_101])))
               (set_groups [group_100 [] "" ""; group_100 debug_args "" ""]
                           initial_view)) !! 0%nat
    = Some (group_100 [] "" "").
Proof.
  assert (Hno : no_debug_port (group_100 [] "" "")).
  { right. exists (proc_100 []). split; [reflexivity|].
    intros a Ha. apply list_elem_of_In in Ha. simpl in Ha.
    destruct Ha as [<- | []]. reflexivity. }
  pose proof (no_port_not_patched 0 (answer_9222 [page_101])
                (set_groups [group_100 [] "" ""; group_100 debug_args "" ""]
                            initial_view)
                (step (CdpOk 0 (Some (answer_9222 [page_101])))
                      (set_groups [group_100 [] "" ""; group_100 debug_args "" ""]
                                  initial_view))
                0 (group_100 [] "" "") eq_refl Hno eq_refl)
    as (_ & Hq & _ & _ & Hpatch & Hgroup).
  split; [exact Hq|]. split; [exact Hpatch | exact Hgroup].
Defined.

Example ports_queried_once :
  ports_queried [group_100 [] "" ""; group_100 debug_args "" "";
                 group_100 debug_args "https://example.com" "page"] = ["9222"].
Proof. reflexivity. Qed.

(** ** Failures *)

Lemma run_app tr tr' v : run (tr ++ tr') v = run tr' (run tr v).
Proof. apply foldl_app. Qed.

Lemma run_snoc tr e v : run (tr ++ [e]) v = step e (run tr v).
Proof. by rewrite run_app. Qed.

Lemma step_cdp_no_ports cycle portMap v :
  no_ports portMap = true -> step (CdpOk cycle portMap) v = v.
Proof. destruct portMap as [m|]; [|done]. simpl. by intros ->. Qed.

(** A debug query that rejects, or that resolves with nothing, leaves the
    whole view as it was, wherever in a run it arrives and whatever
    follows; and when the updater returns and the answer has no entry (no
    key, or an empty list) for the port a group declares, that group stays
    at its place exactly as publish and carry-forward left it, the rest of
    the view untouched. *)
Lemma cdp_no_data_silent (cycle : nat) (v : View) :
  (forall tr tr', try_run (tr ++ CdpFailed cycle :: tr') v = try_run (tr ++ tr') v) /\
  (forall portMap, no_ports portMap = true ->
     try_step (CdpOk cycle portMap) v = Some v) /\
  (forall m i g v', groups v !! i = Some g -> no_data_for m g ->
     try_step (CdpOk cycle (Some m)) v = Some v' ->
     groups v' !! i = Some g /\ loading v' = loading v /\
     expandedGroups v' = expandedGroups v /\ statusMsg v' = statusMsg v /\
     console v' = console v /\ cdp_calls v' = cdp_calls v).
Proof.
  split; [|split].
  - intros tr tr'. rewrite !try_run_app.
    destruct (try_run tr v) as [v1|]; [reflexivity | done].
  - intros portMap Hno. unfold try_step.
    assert (throws (CdpOk cycle portMap) v = false) as ->.
    { destruct portMap as [m|]; [|done]. unfold throws. by rewrite Hno. }
    by rewrite step_cdp_no_ports.
  - intros m i g v' Hg Hno [_ ->]%try_step_some. split; [|apply step_cdp_rest].
    rewrite groups_step_cdp, list_lookup_fmap, Hg. simpl. f_equal.
    destruct (pages_for_no_data m g Hno).
    + by apply patched_group_no_pages.
    + by apply patched_group_empty_pages.
Qed.

(** C9: a browser was started with [--remote-debugging-port=constructor];
    the answer lists port 9222 only, so it has no data for the port this
    group declares. Looking the port text up in the answer finds the
    property every JS object inherits under that name, the guard
    [!portMap[port]] lets it through, [pages.find] throws, and the updater
    does not return: the missing port is not passed over in silence. *)
Theorem inherited_port_name_throws :
  no_data_for (answer_9222 [page_101]) (group_100 constructor_args "" "") /\
  declared_port (group_100 constructor_args "" "") = Some "constructor" /\
  portMap_get (answer_9222 [page_101]) "constructor" = Inherited /\
  group_throws (answer_9222 [page_101]) (group_100 constructor_args "" "") = true /\
  try_step (CdpOk 1 (Some (answer_9222 [page_101])))
           (showing (group_100 constructor_args "" "")) = None /\
  try_step (CdpOk 1 (Some (answer_9222 [page_101])))
           (showing (group_100 ["--remote-debugging-port=9333"] "" ""))
    = Some (showing (group_100 ["--remote-debugging-port=9333"] "" "")).
Proof.
  split; [|by vm_compute].
  exists (proc_100 constructor_args), "constructor".
  split; [reflexivity|]. split; [reflexivity|]. by left.
Qed.

(** C5 (amended): when the snapshot query rejects, nothing is published and
    no debug query is sent; groups, expanded groups and the status message
    stay as they were; the error goes to the console; and the loading flag
    is lowered if this cycle had raised it. *)
Theorem snapshot_failure_keeps_list (cycle : nat) (showLoading : bool)
    (err : string) (v : View) :
  let v' := step (SnapshotFailed cycle showLoading err) v in
  groups v' = groups v /\
  expandedGroups v' = expandedGroups v /\
  statusMsg v' = statusMsg v /\
  cdp_calls v' = cdp_calls v /\
  console v' = (console v ++ ["Failed to get processes: " +:+ err])%list /\
  loading v' = (if showLoading then false else loading v).
Proof. by destruct showLoading. Qed.

(** C5 as stated fails: after a failed manual refresh of a view that shows
    a list and no status, the list is kept but no status message is on
    screen. *)
Lemma snapshot_failure_not_surfaced :
  groups (run [Started 1 true; SnapshotFailed 1 true "timed out"]
              (showing (group_100 [] "" "")))
    = groups (showing (group_100 [] "" "")) /\
  ~ status_shown (run [Started 1 true; SnapshotFailed 1 true "timed out"]
                      (showing (group_100 [] "" ""))).
Proof.
  split; [reflexivity|]. intros H. by apply H.
Qed.

(** ** When an answer changes the list *)

Lemma existsb_fst_map {A B} (f : A -> bool * B) (l : list A) :
  existsb fst (map f l) = true <-> exists x, x ∈ l /\ fst (f x) = true.
Proof.
  rewrite existsb_exists. split.
  - intros (y & Hy & Hf). apply in_map_iff in Hy as (x & <- & Hx).
    exists x. by rewrite list_elem_of_In.
  - intros (x & Hx & Hf). exists (f x). split; [|done].
    apply in_map. by apply list_elem_of_In.
Qed.

Lemma patch_group_fst portMap g :
  fst (patch_group portMap g) = true <->
  exists pages proc m, pages_for portMap (processes g) = Some pages /\
    proc ∈ processes g /\ match_for pages proc = Some m /\ ~ carries proc m.
Proof.
  unfold patch_group.
  destruct (pages_for portMap (processes g)) as [pages|]; simpl.
  - destruct (existsb fst (map (patch_proc pages) (processes g))) eqn:E; simpl.
    + apply existsb_fst_map in E as (proc & Hin & Hf).
      apply patch_proc_fst in Hf as (m & Hm & Hc). split; [|done].
      intros _. by exists pages, proc, m.
    + split; [done|]. intros (pages' & proc & m & [= <-] & Hin & Hm & Hc).
      assert (existsb fst (map (patch_proc pages) (processes g)) = true); [|congruence].
      apply existsb_fst_map. exists proc. split; [done|].
      apply patch_proc_fst. eauto.
  - split; [done|]. by intros (? & ? & ? & ? & _).
Qed.

Lemma apply_cdp_fst portMap gs :
  fst (apply_cdp portMap gs) = true <-> would_change portMap gs.
Proof.
  unfold apply_cdp, would_change. cbn [fst]. rewrite existsb_fst_map. split.
  - intros (g & Hg & Hf). apply patch_group_fst in Hf as (pages & proc & m & ?).
    exists g, proc, pages, m. tauto.
  - intros (g & proc & pages & m & Hg & ?). exists g. split; [done|].
    apply patch_group_fst. exists pages, proc, m. tauto.
Qed.

Lemma map_fixed {A} (f : A -> A) (l : list A) :
  map f l = l -> forall x, x ∈ l -> f x = x.
Proof.
  induction l as [|y l IH]; simpl; intros Heq x Hx.
  - by apply elem_of_nil in Hx.
  - injection Heq as H1 H2. apply elem_of_cons in Hx as [-> | Hx]; auto.
Qed.

Lemma patched_moves pages proc m :
  match_for pages proc = Some m -> ~ carries proc m -> patched pages proc <> proc.
Proof.
  unfold patched. intros -> Hc Heq. apply Hc. unfold carries.
  by rewrite <- Heq.
Qed.

Lemma would_change_moves portMap gs :
  would_change portMap gs -> map (patched_group portMap) gs <> gs.
Proof.
  intros (g & proc & pages & m & Hg & Hproc & Hpages & Hm & Hc) Heq.
  pose proof (map_fixed _ _ Heq g Hg) as Hgfix.
  unfold patched_group in Hgfix. rewrite Hpages in Hgfix.
  apply (f_equal processes) in Hgfix. simpl in Hgfix.
  by apply (patched_moves pages proc m Hm Hc), (map_fixed _ _ Hgfix).
Qed.

Lemma unchanged_iff portMap gs :
  map (patched_group portMap) gs = gs <-> ~ would_change portMap gs.
Proof.
  split.
  - intros Heq Hw. by apply (would_change_moves portMap gs).
  - intros Hn. rewrite <- apply_cdp_snd. unfold apply_cdp. cbn [snd].
    destruct (existsb fst _) eqn:E; [|done].
    destruct Hn. by apply apply_cdp_fst.
Qed.

(** ** Which entry patches which record *)

Lemma entry_matches_true proc e :
  entry_matches proc e = true <-> process_id e = Some (pid proc) /\ pid proc <> 0.
Proof.
  unfold entry_matches, truthy_num. destruct (process_id e) as [z|]; simpl.
  - rewrite andb_true_iff, negb_true_iff, Z.eqb_neq, Z.eqb_eq. split.
    + intros [Hz ->]. done.
    + intros [[= ->] Hz]. done.
  - split; [done | by intros [? _]].
Qed.


Lemma find_first {A} (f : A -> bool) (l : list A) (x : A) :
  find f l = Some x <->
  exists l1 l2, l = (l1 ++ x :: l2)%list /\ f x = true /\
                forall y, y ∈ l1 -> f y = false.
Proof.
  induction l as [|a l IH]; simpl.
  - split; [done|]. intros ([|??] & ? & ? & _); done.
  - destruct (f a) eqn:Ha.
    + split.
      * intros [= <-]. exists [], l. split; [done|]. split; [done|].
        intros y Hy. by apply elem_of_nil in Hy.
      * intros (l1 & l2 & Heq & Hx & Hl1).
        destruct l1 as [|b l1]; injection Heq as <- Hl; [done|].
        rewrite (Hl1 a) in Ha by left. done.
    + rewrite IH. split.
      * intros (l1 & l2 & -> & Hx & Hl1). exists (a :: l1), l2.
        split; [done|]. split; [done|].
        intros y [-> | Hy]%elem_of_cons; auto.
      * intros (l1 & l2 & Heq & Hx & Hl1).
        destruct l1 as [|b l1]; injection Heq as <- Hl; [congruence|].
        exists l1, l2. split; [done|]. split; [done|].
        intros y Hy. apply Hl1. by right.
Qed.

Lemma pages_for_some portMap procs pages :
  pages_for portMap procs = Some pages <->
  exists b port, find_browser procs = Some b /\ port_of b = Some port /\
                 port <> "" /\ portMap !! port = Some pages.
Proof.
  unfold pages_for. destruct (find_browser procs) as [b|]; simpl;
    [|split; [done | by intros (? & ? & ? & _)]].
  destruct (port_of b) as [port|] eqn:Hport; simpl;
    [|split; [done | intros (? & ? & [= <-] & ? & _); congruence]].
  destruct (truthy_str port) eqn:Ht.
  - apply truthy_str_true in Ht. split.
    + intros H. by exists b, port.
    + intros (? & ? & [= <-] & Hp & _ & H). congruence.
  - apply truthy_str_false in Ht. split; [done|].
    intros (? & ? & [= <-] & Hp & ? & _). congruence.
Qed.

Lemma patched_group_lookup portMap g j proc :
  processes g !! j = Some proc ->
  processes (patched_group portMap g) !! j =
  Some (match pages_for portMap (processes g) with
        | Some pages => patched pages proc
        | None => proc
        end).
Proof.
  intros Hj. unfold patched_group.
  destruct (pages_for portMap (processes g)) as [pages|]; [|done].
  simpl. by rewrite list_lookup_fmap, Hj.
Qed.




(** ** Carry-forward *)

Lemma build_urlMap_flat prev :
  build_urlMap prev = foldl urlMap_add ∅ (all_records prev).
Proof.
  unfold build_urlMap, all_records. generalize (∅ : gmap Z (string * string)).
  induction prev as [|g prev IH]; intros m; simpl; [done|].
  by rewrite foldl_app, IH.
Qed.

Lemma urlMap_add_lookup m a p :
  urlMap_add m a !! p =
  if truthy_str (url a) && Z.eqb (pid a) p
  then Some (url a, cdp_target_type a) else m !! p.
Proof.
  unfold urlMap_add. destruct (truthy_str (url a)); simpl; [|done].
  destruct (Z.eqb_spec (pid a) p) as [<- | Hne].
  - by rewrite lookup_insert_eq.
  - by rewrite lookup_insert_ne.
Qed.

Lemma urlMap_lookup_agree (l : list ProcessInfo) m p u t :
  agree_on p u t l ->
  m !! p = Some (u, t) \/
    (exists q, q ∈ l /\ pid q = p /\ url q <> "") ->
  foldl urlMap_add m l !! p = Some (u, t).
Proof.
  revert m. induction l as [|a l IH]; intros m Hag Hsrc; simpl.
  - destruct Hsrc as [H | (q & Hq & _)]; [done | by apply elem_of_nil in Hq].
  - apply IH.
    + intros q Hq. apply Hag. by right.
    + rewrite urlMap_add_lookup.
      destruct (truthy_str (url a)) eqn:Ht; simpl.
      * destruct (Z.eqb_spec (pid a) p) as [Hp | Hne].
        -- left. apply truthy_str_true in Ht.
           destruct (Hag a) as [-> ->]; [by left | done | done | done].
        -- destruct Hsrc as [H | (q & [-> | Hq]%elem_of_cons & Hp & Hu)];
             [by left | done | right; eauto].
      * apply truthy_str_false in Ht.
        destruct Hsrc as [H | (q & [-> | Hq]%elem_of_cons & Hp & Hu)];
          [by left | done | right; eauto].
Qed.

Lemma all_records_carry_forward prev data :
  all_records (carry_forward prev data)
  = map (carry_proc (build_urlMap prev)) (all_records data).
Proof.
  unfold carry_forward, all_records.
  induction data as [|g data IH]; simpl; [done|].
  by rewrite map_app, IH.
Qed.

Lemma pid_carry_proc urlMap proc : pid (carry_proc urlMap proc) = pid proc.
Proof. unfold carry_proc. by destruct (urlMap !! pid proc) as [[]|]. Qed.

Lemma elem_of_all_records (r : ProcessInfo) (gs : list ProcessGroup) :
  r ∈ all_records gs <-> exists g, g ∈ gs /\ r ∈ processes g.
Proof.
  unfold all_records. induction gs as [|g gs IH]; simpl.
  - split; [by intros ?%elem_of_nil | by intros (? & ?%elem_of_nil & _)].
  - rewrite elem_of_app, IH. split.
    + intros [Hr | (g' & Hg' & Hr)]; [exists g | exists g'];
        (split; [|done]); [by left | by right].
    + intros (g' & [-> | Hg']%elem_of_cons & Hr); [by left | right; eauto].
Qed.

(** Publishing keeps a URL that the previous list holds for a pid still in
    the snapshot. *)
Lemma carry_forward_holds p u t prev data :
  u <> "" -> holds_url p u t prev ->
  (exists r, r ∈ all_records data /\ pid r = p) ->
  holds_url p u t (carry_forward prev data).
Proof.
  intros Hu [(old & Hold & Hpold) Hall] (r & Hr & Hpr).
  assert (Hmap : build_urlMap prev !! p = Some (u, t)).
  { rewrite build_urlMap_flat. apply urlMap_lookup_agree.
    - intros q Hq Hp _. by apply Hall.
    - right. exists old. split; [done|]. split; [done|].
      destruct (Hall old Hold Hpold) as [-> _]. done. }
  unfold holds_url. rewrite all_records_carry_forward. split.
  - exists (carry_proc (build_urlMap prev) r). split.
    + apply list_elem_of_fmap. eauto.
    + by rewrite pid_carry_proc.
  - intros r' Hr' Hp'. apply list_elem_of_fmap in Hr' as (r0 & -> & Hr0).
    rewrite pid_carry_proc in Hp'. unfold carry_proc. rewrite Hp', Hmap. done.
Qed.

(** An answer that names no entry for a pid leaves the records of that pid
    alone. *)
Lemma patched_silent m (g : ProcessGroup) (proc : ProcessInfo) :
  silent_on (pid proc) (Some m) ->
  match pages_for m (processes g) with
  | Some pages => patched pages proc
  | None => proc
  end = proc.
Proof.
  intros Hs. destruct (pages_for m (processes g)) as [pages|] eqn:Hpages; [|done].
  unfold patched. destruct (match_for pages proc) as [e|] eqn:He; [|done].
  apply pages_for_some in Hpages as (b & port & _ & _ & _ & Hport).
  apply find_first in He as (l1 & l2 & -> & Hmatch & _).
  apply entry_matches_true in Hmatch as [Hid _].
  destruct (Hs m port _ e eq_refl Hport); [|done].
  apply elem_of_app. right. by left.
Qed.

Lemma cdp_silent_records p m gs r :
  silent_on p (Some m) -> pid r = p ->
  r ∈ all_records (map (patched_group m) gs) <-> r ∈ all_records gs.
Proof.
  intros Hs Hp. rewrite !elem_of_all_records. split.
  - intros (g' & Hg' & Hr). apply list_elem_of_fmap in Hg' as (g & -> & Hg).
    exists g. split; [done|]. unfold patched_group in Hr.
    destruct (pages_for m (processes g)) as [pages|] eqn:Hpages; [|done].
    simpl in Hr. apply list_elem_of_fmap in Hr as (r0 & -> & Hr0).
    pose proof (patched_same_but_debug pages r0) as [Hpid _].
    rewrite Hpid in Hp. subst p.
    pose proof (patched_silent m g r0 Hs) as Hfix. rewrite Hpages in Hfix.
    by rewrite Hfix.
  - intros (g & Hg & Hr). exists (patched_group m g). split.
    + apply list_elem_of_fmap. eauto.
    + unfold patched_group.
      destruct (pages_for m (processes g)) as [pages|] eqn:Hpages; [|done].
      simpl. apply list_elem_of_fmap. exists r. split; [|done]. subst p.
      pose proof (patched_silent m g r Hs) as Hfix. by rewrite Hpages in Hfix.
Qed.

Lemma step_quiet_holds p u t e v :
  u <> "" -> quiet_for p e -> holds_url p u t (groups v) ->
  holds_url p u t (groups (step e v)).
Proof.
  intros Hu Hq Hh. destruct e as [c sl | c sl data | c sl err | c pm | c].
  - by destruct sl.
  - assert (groups (step (SnapshotOk c sl data) v) = carry_forward (groups v) data)
      as -> by by destruct sl.
    by apply carry_forward_holds.
  - by destruct sl.
  - rewrite groups_step_cdp. destruct pm as [m|]; [|done]. simpl in Hq.
    destruct Hh as [(r & Hr & Hp) Hall]. split.
    + exists r. split; [|done].
      by apply (cdp_silent_records p m (groups v) r Hq Hp).
    + intros r' Hr' Hp'. apply Hall; [|done].
      by apply (cdp_silent_records p m (groups v) r' Hq Hp').
  - done.
Qed.

Lemma run_quiet_holds p u t tr v :
  u <> "" -> Forall (quiet_for p) tr -> holds_url p u t (groups v) ->
  holds_url p u t (groups (run tr v)).
Proof.
  intros Hu Hq. revert v. induction Hq as [|e tr He Htr IH]; intros v Hh; [done|].
  apply IH. by apply step_quiet_holds.
Qed.

Lemma carry_forward_lookup prev data gi pi (g : ProcessGroup) (new : ProcessInfo) :
  data !! gi = Some g -> processes g !! pi = Some new ->
  exists g', carry_forward prev data !! gi = Some g' /\
             processes g' !! pi = Some (carry_proc (build_urlMap prev) new).
Proof.
  intros Hg Hnew. eexists. unfold carry_forward. split.
  - rewrite list_lookup_fmap, Hg. reflexivity.
  - simpl. by rewrite list_lookup_fmap, Hnew.
Qed.

Example url_kept_two_cycles :
  groups (run two_quiet_cycles
              (showing (group_100 debug_args "https://example.com" "page")))
  = [group_100 debug_args "https://example.com" "page"].
Proof. vm_compute. reflexivity. Qed.

(** The renderer has exited: the next list has the browser alone. *)
Example exited_renderer_gone :
  groups (step (SnapshotOk 3 false
                  [with_processes (group_100 debug_args "" "") [proc_100 debug_args]])
               (showing (group_100 debug_args "https://example.com" "page")))
  = [with_processes (group_100 debug_args "" "") [proc_100 debug_args]].
Proof. vm_compute. reflexivity. Qed.

(** A pid that is back after a cycle without it starts with no URL. *)
Example url_not_kept_across_gap :
  groups (run [SnapshotOk 3 false
                 [with_processes (group_100 debug_args "" "") [proc_100 debug_args]];
               SnapshotOk 4 false [group_100 debug_args "" ""]]
              (showing (group_100 debug_args "https://example.com" "page")))
  = [group_100 debug_args "" ""].
Proof. vm_compute. reflexivity. Qed.

(** ** The display sort *)

Section StableSort.
Context {A : Type} (key : A -> Z).

Let cmp (a b : A) : Z := key a - key b.

Lemma sort_insert_perm x l : Permutation (sort_insert cmp x l) (x :: l).
Proof.
  induction l as [|y l IH]; simpl; [done|].
  destruct (cmp x y <=? 0); [done|].
  rewrite IH. apply perm_swap.
Qed.

Lemma array_sort_perm l : Permutation (array_sort cmp l) l.
Proof.
  induction l as [|x l IH]; simpl; [done|].
  by rewrite sort_insert_perm, IH.
Qed.

Lemma sort_insert_sorted x l :
  StronglySorted (fun a b => key a <= key b) l ->
  StronglySorted (fun a b => key a <= key b) (sort_insert cmp x l).
Proof.
  induction 1 as [|y l Hl IH Hy]; simpl.
  - repeat constructor.
  - destruct (Z.leb_spec (cmp x y) 0) as [Hle | Hgt].
    + unfold cmp in Hle. constructor; [by constructor|]. constructor; [lia|].
      eapply Forall_impl; [exact Hy|]. simpl. intros; lia.
    + unfold cmp in Hgt. constructor; [done|].
      rewrite sort_insert_perm. constructor; [lia | done].
Qed.

Lemma array_sort_sorted l :
  StronglySorted (fun a b => key a <= key b) (array_sort cmp l).
Proof.
  induction l as [|x l IH]; simpl; [constructor | by apply sort_insert_sorted].
Qed.

(** Members that share a key keep their order. *)
Lemma sort_insert_stable (f : A -> bool) x l :
  (forall a b, f a = true -> f b = true -> key a = key b) ->
  List.filter f (sort_insert cmp x l) = List.filter f (x :: l).
Proof.
  intros Hf. induction l as [|y l IH]; [done|].
  cbn [sort_insert]. destruct (Z.leb_spec (cmp x y) 0) as [Hle | Hgt]; [done|].
  cbn [List.filter] in *. rewrite IH.
  destruct (f x) eqn:Hx, (f y) eqn:Hy; try done.
  unfold cmp in Hgt. rewrite (Hf x y Hx Hy) in Hgt. lia.
Qed.

Lemma array_sort_stable (f : A -> bool) l :
  (forall a b, f a = true -> f b = true -> key a = key b) ->
  List.filter f (array_sort cmp l) = List.filter f l.
Proof.
  intros Hf. induction l as [|x l IH]; [done|].
  cbn [array_sort]. rewrite sort_insert_stable by done.
  cbn [List.filter]. by rewrite IH.
Qed.

End StableSort.

Lemma str_eqb_sym a b : str_eqb a b = str_eqb b a.
Proof. apply String.eqb_sym. Qed.

(** How the table of the code and the precedence of the specification
    relate, extensions left aside. *)
Lemma order_of_cases p :
  is_extension p = false ->
  (precedence p = 0 /\ order_of p = 0) \/ (precedence p = 1 /\ order_of p = 1) \/
  (precedence p = 3 /\ order_of p = 2) \/ (precedence p = 4 /\ order_of p = 3) \/
  (precedence p = 5 /\ order_of p = 4) \/ (precedence p = 6 /\ order_of p = 99).
Proof.
  unfold is_extension, precedence, order_of, typeOrder. cbn [find fst snd].
  generalize (type_key p). intros k Hext. rewrite Hext.
  rewrite !(str_eqb_sym _ k).
  destruct (str_eqb k "browser"); [tauto|].
  destruct (str_eqb k "renderer"); [tauto|].
  destruct (str_eqb k "gpu"); [tauto|].
  destruct (str_eqb k "crashpad"); [tauto|].
  destruct (str_eqb k "utility"); simpl; tauto.
Qed.

Lemma order_of_monotone a b :
  is_extension a = false -> is_extension b = false ->
  order_of a <= order_of b -> precedence a <= precedence b.
Proof.
  intros Ha Hb. pose proof (order_of_cases a Ha). pose proof (order_of_cases b Hb). lia.
Qed.

Lemma of_precedence_same_order k a b :
  of_precedence k a = true -> of_precedence k b = true -> order_of a = order_of b.
Proof.
  unfold of_precedence. rewrite !andb_true_iff, !negb_true_iff, !Z.eqb_eq.
  intros [Ha Hka] [Hb Hkb].
  pose proof (order_of_cases a Ha). pose proof (order_of_cases b Hb). lia.
Qed.

Lemma sortProcesses_sorted procs :
  StronglySorted (fun a b => order_of a <= order_of b) (sortProcesses procs).
Proof. apply (array_sort_sorted order_of). Qed.

Lemma filter_sorted_mono {A} (R S : A -> A -> Prop) (f : A -> bool) l :
  (forall a b, f a = true -> f b = true -> R a b -> S a b) ->
  StronglySorted R l -> StronglySorted S (List.filter f l).
Proof.
  intros HRS. induction 1 as [|x l Hl IH Hx]; simpl; [constructor|].
  destruct (f x) eqn:Hfx; [|done]. constructor; [done|].
  apply Forall_forall. intros y Hy. apply list_elem_of_In, filter_In in Hy as [Hy Hfy].
  apply HRS; [done..|]. rewrite Forall_forall in Hx. apply Hx.
  by apply list_elem_of_In.
Qed.

(** The display sort rearranges the members without adding or dropping
    any; extensions left aside, the members come out by the precedence
    Browser, Renderer, GPU, Crashpad, Utility, then every other type; and
    members of one precedence keep the order the list had. *)
Lemma display_sort_order (procs : list ProcessInfo) :
  Permutation (sortProcesses procs) procs /\
  StronglySorted (fun a b => precedence a <= precedence b)
    (List.filter (fun p => negb (is_extension p)) (sortProcesses procs)) /\
  (forall k, List.filter (of_precedence k) (sortProcesses procs)
             = List.filter (of_precedence k) procs).
Proof.
  split; [|split].
  - apply (array_sort_perm order_of).
  - eapply filter_sorted_mono; [|apply sortProcesses_sorted].
    intros a b Ha Hb. apply negb_true_iff in Ha, Hb. by apply order_of_monotone.
  - intros k. apply (array_sort_stable order_of). apply of_precedence_same_order.
Qed.

(** *** Sorting with any comparator that decides a total preorder *)

Section ComparatorSort.
Context {A : Type} (cmp : A -> A -> Z) (R : A -> A -> Prop).
Hypothesis cmp_le : forall a b, cmp a b <= 0 -> R a b.
Hypothesis cmp_gt : forall a b, 0 < cmp a b -> R b a.
Hypothesis R_trans : forall a b c, R a b -> R b c -> R a c.

Lemma sort_insert_perm_by x l : Permutation (sort_insert cmp x l) (x :: l).
Proof.
  induction l as [|y l IH]; simpl; [done|].
  destruct (cmp x y <=? 0); [done|].
  rewrite IH. apply perm_swap.
Qed.

Lemma array_sort_perm_by l : Permutation (array_sort cmp l) l.
Proof.
  induction l as [|x l IH]; simpl; [done|].
  by rewrite sort_insert_perm_by, IH.
Qed.

Lemma sort_insert_sorted_by x l :
  StronglySorted R l -> StronglySorted R (sort_insert cmp x l).
Proof.
  induction 1 as [|y l Hl IH Hy]; simpl.
  - repeat constructor.
  - destruct (Z.leb_spec (cmp x y) 0) as [Hle | Hgt].
    + constructor; [by constructor|]. constructor; [by apply cmp_le|].
      eapply Forall_impl; [exact Hy|]. simpl. intros z Hz.
      eapply R_trans; [by apply cmp_le | done].
    + constructor; [done|].
      rewrite sort_insert_perm_by. constructor; [by apply cmp_gt | done].
Qed.

Lemma array_sort_sorted_by l : StronglySorted R (array_sort cmp l).
Proof.
  induction l as [|x l IH]; simpl; [constructor | by apply sort_insert_sorted_by].
Qed.

End ComparatorSort.

(** *** The order of the members the builder hands over *)

Lemma member_cmp_le a b : GroupBuilder.member_cmp a b <= 0 -> precedes a b.
Proof.
  unfold GroupBuilder.member_cmp, precedes.
  destruct (Z.ltb_spec (precedence a) (precedence b)); [auto|].
  destruct (Z.ltb_spec (precedence b) (precedence a)); lia.
Qed.

Lemma member_cmp_gt a b : 0 < GroupBuilder.member_cmp a b -> precedes b a.
Proof.
  unfold GroupBuilder.member_cmp, precedes.
  destruct (Z.ltb_spec (precedence a) (precedence b)); [lia|].
  destruct (Z.ltb_spec (precedence b) (precedence a)); lia.
Qed.

Lemma precedes_trans a b c : precedes a b -> precedes b c -> precedes a c.
Proof. unfold precedes. lia. Qed.

Lemma sort_members_perm l : Permutation (GroupBuilder.sort_members l) l.
Proof. apply array_sort_perm_by. Qed.

Lemma sort_members_sorted l : StronglySorted precedes (GroupBuilder.sort_members l).
Proof.
  apply (array_sort_sorted_by _ precedes);
    [apply member_cmp_le | apply member_cmp_gt | apply precedes_trans].
Qed.

Lemma elem_of_sort_members p l : p ∈ GroupBuilder.sort_members l <-> p ∈ l.
Proof. by rewrite sort_members_perm. Qed.

(** *** Sorting by a key and leaving members out commute *)

Lemma Forall_list_filter {A} (P : A -> Prop) (f : A -> bool) l :
  Forall P l -> Forall P (List.filter f l).
Proof.
  induction 1 as [|x l Hx Hl IH]; simpl; [constructor|].
  destruct (f x); [by constructor | done].
Qed.

Section FilterSort.
Context {A : Type} (key : A -> Z).

Let cmp (a b : A) : Z := key a - key b.

Lemma sort_insert_front x l :
  Forall (fun y => key x <= key y) l -> sort_insert cmp x l = x :: l.
Proof.
  destruct 1 as [|y l Hy _]; simpl; [done|].
  unfold cmp. destruct (Z.leb_spec (key x - key y) 0); [done | lia].
Qed.

Lemma sort_insert_filter (f : A -> bool) x l :
  StronglySorted (fun a b => key a <= key b) l ->
  List.filter f (sort_insert cmp x l)
  = if f x then sort_insert cmp x (List.filter f l) else List.filter f l.
Proof.
  induction 1 as [|y l Hl IH Hy]; [simpl; by destruct (f x)|].
  cbn [sort_insert]. destruct (Z.leb_spec (cmp x y) 0) as [Hle | Hgt].
  - unfold cmp in Hle.
    assert (Hall : Forall (fun z => key x <= key z) (y :: l)).
    { constructor; [lia|]. eapply Forall_impl; [exact Hy|]. simpl. intros; lia. }
    change (List.filter f (x :: y :: l))
      with (if f x then x :: List.filter f (y :: l) else List.filter f (y :: l)).
    destruct (f x) eqn:Hx; [|done].
    symmetry. apply sort_insert_front. by apply Forall_list_filter.
  - cbn [List.filter]. destruct (f y) eqn:Hfy.
    + rewrite IH. destruct (f x); [|done]. cbn [sort_insert].
      destruct (Z.leb_spec (cmp x y) 0); [lia | done].
    + by rewrite IH.
Qed.

Lemma array_sort_filter (f : A -> bool) l :
  List.filter f (array_sort cmp l) = array_sort cmp (List.filter f l).
Proof.
  induction l as [|x l IH]; [done|].
  cbn [array_sort List.filter].
  rewrite sort_insert_filter by apply (array_sort_sorted key).
  rewrite IH. by destruct (f x).
Qed.

Lemma array_sort_of_sorted l :
  StronglySorted (fun a b => key a <= key b) l -> array_sort cmp l = l.
Proof.
  induction 1 as [|x l Hl IH Hx]; simpl; [done|].
  rewrite IH. by apply sort_insert_front.
Qed.

End FilterSort.

Lemma precedes_order_of a b :
  is_extension a = false -> is_extension b = false ->
  precedes a b -> order_of a <= order_of b.
Proof.
  intros Ha Hb Hab. pose proof (order_of_cases a Ha). pose proof (order_of_cases b Hb).
  unfold precedes in Hab. lia.
Qed.

(** C3: at the members of a group as the builder hands them over, in the
    precedence Browser, Renderer, Extension, GPU and by pid within one role,
    the display sort moves the extension behind the GPU process: the table
    [typeOrder] has no entry for extensions, so the extension is ranked 99
    with the unknown types, and the rows no longer follow the precedence
    the members came in. *)
Theorem display_sort_misplaces_extension :
  StronglySorted precedes members_with_extension /\
  map pid members_with_extension = [100; 4; 5; 6] /\
  map pid (sortProcesses members_with_extension) = [100; 4; 6; 5] /\
  order_of (member 5 "Extension") = 99 /\
  order_of (member 6 "GPU") = 2 /\
  ~ StronglySorted precedes (sortProcesses members_with_extension).
Proof.
  split; [|split; [done|split; [done|split; [done|split; [done|]]]]].
  - repeat constructor; vm_compute; (by left) || (right; split; [done | discriminate]).
  - change (sortProcesses members_with_extension)
      with [member 100 "Browser"; member 4 "Renderer"; member 6 "GPU";
            member 5 "Extension"].
    intros H.
    apply StronglySorted_inv in H as [H _].
    apply StronglySorted_inv in H as [H _].
    apply StronglySorted_inv in H as [_ H]. apply Forall_inv in H.
    unfold precedes in H.
    change (precedence (member 6 "GPU")) with 3 in H.
    change (precedence (member 5 "Extension")) with 2 in H.
    lia.
Qed.

Example sort_by_type :
  map pid (sortProcesses [member 7 "Utility"; member 6 "GPU"; member 5 "Crashpad";
                          member 4 "Renderer"; member 100 "Browser";
                          member 3 "Renderer"; member 8 "Unknown"])
  = [100; 4; 3; 6; 5; 7; 8].
Proof. reflexivity. Qed.

(** An extension has no entry in [typeOrder] and sorts with the unknown
    types, after the utilities. *)
Example extension_sorts_last :
  map pid (sortProcesses [member 5 "Extension"; member 6 "GPU"; member 7 "Utility"])
  = [6; 7; 5].
Proof. reflexivity. Qed.

(** ** The group builder *)

Section Grouping.
Import GroupBuilder.

Abbreviation keys acc := (map (fun rm : ProcessInfo * list ProcessInfo => pid (fst rm)) acc).

Lemma members_of_add k root p acc :
  members_of k (add_member root p acc) =
  if Z.eqb (pid root) k then (members_of k acc ++ [p])%list else members_of k acc.
Proof.
  unfold members_of. induction acc as [|[r ms] acc IH]; simpl.
  - by destruct (Z.eqb_spec (pid root) k).
  - destruct (Z.eqb_spec (pid r) (pid root)) as [Hr | Hr]; simpl.
    + rewrite Hr. by destruct (Z.eqb_spec (pid root) k).
    + destruct (Z.eqb_spec (pid r) k) as [Hk | Hk]; [|done].
      destruct (Z.eqb_spec (pid root) k); [congruence | done].
Qed.

Lemma keys_add k root p acc :
  k ∈ keys (add_member root p acc) <-> k ∈ keys acc \/ k = pid root.
Proof.
  induction acc as [|[r ms] acc IH]; simpl.
  - rewrite list_elem_of_singleton. split; [auto|].
    intros [H%elem_of_nil | H]; done.
  - destruct (Z.eqb_spec (pid r) (pid root)) as [Hr | Hr]; simpl.
    + rewrite !elem_of_cons. split; [auto|]. intros [H | ->]; [done|]. by left.
    + rewrite !elem_of_cons, IH. tauto.
Qed.

Lemma keys_add_NoDup root p acc :
  NoDup (keys acc) -> NoDup (keys (add_member root p acc)).
Proof.
  induction acc as [|[r ms] acc IH]; simpl; intros Hnd.
  - apply NoDup_singleton.
  - apply NoDup_cons in Hnd as [Hr Hnd].
    destruct (Z.eqb_spec (pid r) (pid root)) as [Heq | Hne]; simpl.
    + by apply NoDup_cons.
    + apply NoDup_cons. split; [|by apply IH].
      rewrite keys_add. intros [H | H]; done.
Qed.

Lemma members_of_collect classified k l acc :
  members_of k (collect_from classified acc l)
  = (members_of k acc ++ List.filter (walks_to classified k) l)%list.
Proof.
  revert acc. induction l as [|p l IH]; intros acc; simpl.
  - by rewrite app_nil_r.
  - unfold collect_from in *. rewrite IH. unfold walks_to at 2.
    destruct (root_of classified p) as [root|]; [|done].
    rewrite members_of_add. destruct (Z.eqb (pid root) k); [|done].
    by rewrite <- app_assoc.
Qed.

Lemma keys_collect_NoDup classified l acc :
  NoDup (keys acc) -> NoDup (keys (collect_from classified acc l)).
Proof.
  revert acc. induction l as [|p l IH]; intros acc Hnd; simpl; [done|].
  apply IH. destruct (root_of classified p); [by apply keys_add_NoDup | done].
Qed.

Lemma keys_collect classified l acc k :
  k ∈ keys (collect_from classified acc l) <->
  k ∈ keys acc \/ exists p root, p ∈ l /\ root_of classified p = Some root /\ pid root = k.
Proof.
  revert acc. induction l as [|p l IH]; intros acc; simpl.
  - split; [auto|]. intros [H | (? & ? & ?%elem_of_nil & _)]; done.
  - unfold collect_from in *. rewrite IH. split.
    + intros [Hk | (q & root & Hq & Hroot & Hpid)].
      * destruct (root_of classified p) as [root|] eqn:Hroot; [|by left].
        apply keys_add in Hk as [Hk | ->]; [by left|].
        right. exists p, root. split; [by left | done].
      * right. exists q, root. split; [by right | done].
    + intros [Hk | (q & root & [-> | Hq]%elem_of_cons & Hroot & Hpid)].
      * left. destruct (root_of classified p); [|done]. apply keys_add. by left.
      * left. rewrite Hroot. apply keys_add. by right.
      * right. eauto.
Qed.

Lemma members_of_entry acc r ms :
  NoDup (keys acc) -> (r, ms) ∈ acc -> members_of (pid r) acc = ms.
Proof.
  unfold members_of. induction acc as [|[r' ms'] acc IH]; simpl; intros Hnd Hin.
  - by apply elem_of_nil in Hin.
  - apply NoDup_cons in Hnd as [Hr' Hnd].
    apply elem_of_cons in Hin as [[= <- <-] | Hin].
    + by rewrite Z.eqb_refl.
    + destruct (Z.eqb_spec (pid r') (pid r)) as [Heq | Hne]; [|by apply IH].
      destruct Hr'. rewrite Heq.
      apply list_elem_of_fmap. by exists (r, ms).
Qed.

Lemma collect_members classified r ms :
  (r, ms) ∈ collect classified ->
  ms = List.filter (walks_to classified (pid r)) classified.
Proof.
  intros Hin. unfold collect in Hin.
  rewrite <- (members_of_entry _ r ms (keys_collect_NoDup classified classified [] (NoDup_nil_2)) Hin).
  by rewrite members_of_collect.
Qed.

Lemma walks_to_true classified k p :
  walks_to classified k p = true <-> pid <$> root_of classified p = Some k.
Proof.
  unfold walks_to. destruct (root_of classified p) as [root|]; simpl.
  - rewrite Z.eqb_eq. split; congruence.
  - done.
Qed.

Lemma build_groups_members channel_of host_app_of classified g :
  g ∈ build_groups channel_of host_app_of classified ->
  processes g
  = sort_members (List.filter (walks_to classified (browser_pid g)) classified).
Proof.
  unfold build_groups. intros Hg.
  apply list_elem_of_fmap in Hg as ([r ms] & -> & Hin). simpl.
  f_equal. by apply collect_members.
Qed.

Lemma build_groups_elem channel_of host_app_of classified g p :
  g ∈ build_groups channel_of host_app_of classified ->
  p ∈ processes g <->
  p ∈ classified /\ pid <$> root_of classified p = Some (browser_pid g).
Proof.
  intros Hg. rewrite (build_groups_members channel_of host_app_of classified g Hg).
  rewrite elem_of_sort_members.
  rewrite list_elem_of_In, filter_In, <- list_elem_of_In, walks_to_true. done.
Qed.

Lemma build_groups_roots channel_of host_app_of classified :
  map browser_pid (build_groups channel_of host_app_of classified)
  = keys (collect classified).
Proof. unfold build_groups. rewrite map_map. done. Qed.

(** *** The bound of the walk loses nothing *)

Lemma walk_reaches idx fuel p root :
  walk idx fuel p = Some root <-> exists k, (k <= fuel)%nat /\ reaches idx p k root.
Proof.
  split.
  - revert p. induction fuel as [|fuel IH]; intros p; simpl;
      destruct (is_browser p) eqn:Hb; try done.
    + intros [= <-]. exists O. split; [lia | by constructor].
    + intros [= <-]. exists O. split; [lia | by constructor].
    + destruct (parent_pid p) as [pp|] eqn:Hpp; simpl; [|done].
      destruct (idx !! pp) as [parent|] eqn:Hparent; simpl; [|done].
      intros (k & Hk & Hr)%IH. exists (S k). split; [lia|].
      by econstructor.
  - intros (k & Hk & Hr). revert fuel Hk.
    induction Hr as [p Hb | p pp parent k root Hb Hpp Hparent Hr IH]; intros fuel Hk.
    + destruct fuel; simpl; by rewrite Hb.
    + destruct fuel as [|fuel]; [lia|]. simpl. rewrite Hb, Hpp. simpl.
      rewrite Hparent. simpl. apply IH. lia.
Qed.

Lemma reaches_det idx p k k' r r' :
  reaches idx p k r -> reaches idx p k' r' -> k = k' /\ r = r'.
Proof.
  intros Hr. revert k' r'.
  induction Hr as [p Hb | p pp parent k root Hb Hpp Hparent Hr IH]; intros k' r' Hr'.
  - inversion Hr'; subst; [done | congruence].
  - inversion Hr' as [| ? pp' parent' k0 ? ? Hpp' Hparent' Hk0]; subst; [congruence|].
    assert (pp' = pp) as -> by congruence.
    assert (parent' = parent) as -> by congruence.
    destruct (IH _ _ Hk0) as [-> ->]. done.
Qed.

(** The pids looked up on the way are pairwise different: each names a
    record at another distance from the root. *)
Lemma reaches_keys idx p k r :
  reaches idx p k r ->
  exists ks : gset Z, size ks = k /\ ks ⊆ dom idx /\
    forall a, a ∈ ks -> exists q j r', idx !! a = Some q /\
                                       reaches idx q j r' /\ (j < k)%nat.
Proof.
  induction 1 as [p Hb | p pp parent k root Hb Hpp Hparent Hr (ks & Hsize & Hdom & Hks)].
  - exists ∅. split; [apply size_empty|]. split; [set_solver|]. set_solver.
  - assert (Hfresh : pp ∉ ks).
    { intros (q & j & r' & Hq & Hqr & Hj)%Hks.
      assert (q = parent) as -> by congruence.
      destruct (reaches_det _ _ _ _ _ _ Hr Hqr). lia. }
    exists ({[pp]} ∪ ks). split; [|split].
    + rewrite size_union by set_solver. rewrite size_singleton. lia.
    + apply union_subseteq. split; [|done].
      apply singleton_subseteq_l, elem_of_dom. eauto.
    + intros a [->%elem_of_singleton | Ha]%elem_of_union.
      * exists parent, k, root. split; [done|]. split; [done | lia].
      * destruct (Hks a Ha) as (q & j & r' & Hq & Hqr & Hj).
        exists q, j, r'. split; [done|]. split; [done | lia].
Qed.

Lemma reaches_bound idx p k r : reaches idx p k r -> (k <= size idx)%nat.
Proof.
  intros (ks & <- & Hdom & _)%reaches_keys.
  rewrite <- (size_dom idx). by apply subseteq_size.
Qed.

Lemma index_size (l : list ProcessInfo) : (size (index_by_pid l) <= length l)%nat.
Proof.
  unfold index_by_pid.
  assert (H : forall m : gmap Z ProcessInfo,
             (size (foldl (fun m p => <[pid p := p]> m) m l) <= size m + length l)%nat).
  { induction l as [|p l IH]; intros m; simpl; [lia|].
    etrans; [apply IH|]. rewrite map_size_insert.
    destruct (m !! pid p); unfold id; lia. }
  etrans; [apply H|]. rewrite map_size_empty. lia.
Qed.

Lemma walk_bounded classified fuel p root :
  walk (index_by_pid classified) fuel p = Some root ->
  root_of classified p = Some root.
Proof.
  intros (k & _ & Hr)%walk_reaches. apply walk_reaches. exists k.
  split; [|done]. etrans; [by eapply reaches_bound | apply index_size].
Qed.

(** C4: every group holds exactly the records of the snapshot whose bounded
    walk ends at the group's root pid, ordered by role precedence and then
    by pid; two groups at different places share no record; a record whose chain reaches no
    Browser record, however far it is followed, is in no group; every
    record whose walk ends at a root is in the group of that root, a
    Browser record in its own; and the bound cuts no walk short: a chain
    that reaches a Browser record at all does so within the bound. *)
Theorem groups_partition (channel_of host_app_of : ProcessInfo -> string)
    (classified : list ProcessInfo) :
  let gs := build_groups channel_of host_app_of classified in
  (forall g, g ∈ gs ->
     processes g
     = sort_members (List.filter (walks_to classified (browser_pid g)) classified) /\
     StronglySorted precedes (processes g) /\
     forall p, p ∈ processes g <->
               p ∈ classified /\ pid <$> root_of classified p = Some (browser_pid g)) /\
  (forall i j gi gj p, gs !! i = Some gi -> gs !! j = Some gj -> i <> j ->
     p ∈ processes gi -> p ∉ processes gj) /\
  (forall p, (forall fuel, walk (index_by_pid classified) fuel p = None) ->
     forall g, g ∈ gs -> p ∉ processes g) /\
  (forall p root, p ∈ classified -> root_of classified p = Some root ->
     is_browser root = true /\
     exists g, g ∈ gs /\ browser_pid g = pid root /\ p ∈ processes g) /\
  (forall b, b ∈ classified -> is_browser b = true ->
     exists g, g ∈ gs /\ browser_pid g = pid b /\ b ∈ processes g) /\
  (forall p fuel root, walk (index_by_pid classified) fuel p = Some root ->
     root_of classified p = Some root).
Proof.
  intros gs.
  assert (Hmem : forall g, g ∈ gs -> forall p, p ∈ processes g <->
            p ∈ classified /\ pid <$> root_of classified p = Some (browser_pid g)).
  { intros g Hg p. by apply (build_groups_elem channel_of host_app_of). }
  assert (Hnd : NoDup (map browser_pid gs)).
  { subst gs. rewrite build_groups_roots.
    apply (keys_collect_NoDup classified classified []), NoDup_nil_2. }
  assert (Hex : forall p root, p ∈ classified -> root_of classified p = Some root ->
            exists g, g ∈ gs /\ browser_pid g = pid root /\ p ∈ processes g).
  { intros p root Hp Hroot.
    assert (Hk : pid root ∈ map browser_pid gs).
    { subst gs. rewrite build_groups_roots.
      apply (keys_collect classified classified []). right. eauto. }
    apply list_elem_of_fmap in Hk as (g & Hpid & Hg). exists g.
    split; [done|]. split; [done|]. apply Hmem; [done|]. split; [done|].
    rewrite Hroot. simpl. by rewrite Hpid. }
  split; [|split; [|split; [|split; [|split]]]]; [..|intros p fuel root; apply walk_bounded].
  - intros g Hg. split; [|split; [|by apply Hmem]].
    + by apply (build_groups_members channel_of host_app_of).
    + rewrite (build_groups_members channel_of host_app_of classified g Hg).
      apply sort_members_sorted.
  - intros i j gi gj p Hi Hj Hij Hpi Hpj.
    apply Hmem in Hpi as [_ Hri]; [|by eapply list_elem_of_lookup_2].
    apply Hmem in Hpj as [_ Hrj]; [|by eapply list_elem_of_lookup_2].
    apply Hij. eapply NoDup_lookup; [exact Hnd | |].
    + rewrite list_lookup_fmap, Hi. done.
    + rewrite list_lookup_fmap, Hj. simpl. congruence.
  - intros p Hnone g Hg Hp. apply Hmem in Hp as [_ Hr]; [|done].
    unfold root_of in Hr. by rewrite Hnone in Hr.
  - intros p root Hp Hroot. split; [|by apply Hex].
    unfold root_of in Hroot. revert p Hp Hroot.
    generalize (length classified) as fuel. intros fuel.
    assert (Hwalk : forall q, walk (index_by_pid classified) fuel q = Some root ->
              is_browser root = true); [|eauto].
    induction fuel as [|fuel IH]; intros q; simpl;
      destruct (is_browser q) eqn:Hq; try congruence.
    destruct (parent_pid q) as [pp|]; simpl; [|done].
    destruct (index_by_pid classified !! pp) as [parent|]; simpl; [|done].
    apply IH.
  - intros b Hb Hbrowser. apply Hex; [done|].
    unfold root_of. destruct (length classified); simpl; by rewrite Hbrowser.
Qed.

(** In a group the builder returns, the Browser member that the patch
    picks is the group's root. *)
Lemma built_group_browser_is_root channel_of host_app_of classified g b :
  g ∈ build_groups channel_of host_app_of classified ->
  find_browser (processes g) = Some b -> pid b = browser_pid g.
Proof.
  intros Hg Hb. apply find_some in Hb as [Hin Hbrowser].
  apply list_elem_of_In in Hin.
  apply (build_groups_elem channel_of host_app_of classified g b Hg) in Hin as [_ Hwalk].
  unfold root_of in Hwalk. destruct (length classified); simpl in Hwalk;
    unfold is_browser in Hwalk; rewrite Hbrowser in Hwalk; by injection Hwalk.
Qed.

End Grouping.

(** The specification's scenario: one group rooted at 100 with members 100
    and 101; the helper 102, whose parent 999 is not in the snapshot, is in
    no group. *)
Lemma groups_partition_witness :
  GroupBuilder.build_groups (fun _ => "Canary") (fun _ => "") snapshot_3
    = [group_100 [] "" ""] /\
  helper_102 ∉ processes (group_100 [] "" "").
Proof.
  assert (Hgs : GroupBuilder.build_groups (fun _ => "Canary") (fun _ => "") snapshot_3
                = [group_100 [] "" ""]) by reflexivity.
  split; [exact Hgs|].
  pose proof (groups_partition (fun _ => "Canary") (fun _ => "") snapshot_3) as H.
  cbv zeta in H. rewrite Hgs in H.
  destruct H as (_ & _ & Hnone & _).
  apply (Hnone helper_102); [|left].
  intros fuel. destruct fuel as [|[|fuel]]; reflexivity.
Defined.

(** ** Object identity under the patch *)

Section ObjectIdentity.
Import Objects.









Lemma match_for_same_pid pages p q : pid p = pid q -> match_for pages p = match_for pages q.
Proof.
  intros Hpid. unfold match_for. induction pages as [|e pages IH]; simpl; [done|].
  unfold entry_matches at 1 3. by rewrite Hpid, IH.
Qed.






End ObjectIdentity.


(** The first application of fresh data does create objects: a new list, a
    new group, a new renderer record; the browser's record is shared. *)
Example fresh_patch_new_objects :
  fst (Objects.apply_cdp_obj (answer_9222 [page_101]) (objects_100 "" "") 5%nat)
  = Objects.mkObj 8
      [Objects.mkObj 7
         (with_processes (group_100 debug_args "" "")
            (Objects.mkObj 6 [Objects.mkObj 3 (proc_100 debug_args);
                              Objects.mkObj 5 (proc_101 "https://example.com" "page")]))].
Proof. reflexivity. Qed.

(** * Further properties of the view *)

(** ** Expanding groups *)

Lemma toggle_member_elem `{Countable K} (x y : K) (s : gset K) :
  y ∈ toggle_member x s <-> (y = x /\ x ∉ s) \/ (y <> x /\ y ∈ s).
Proof.
  unfold toggle_member. case_bool_decide as Hx.
  - rewrite elem_of_difference, elem_of_singleton.
    destruct (decide (y = x)) as [-> | Hy]; tauto.
  - rewrite elem_of_union, elem_of_singleton.
    destruct (decide (y = x)) as [-> | Hy]; tauto.
Qed.

Lemma toggle_member_twice `{Countable K} (x : K) (s : gset K) :
  toggle_member x (toggle_member x s) = s.
Proof.
  apply set_eq. intros y. rewrite !toggle_member_elem.
  destruct (decide (y = x)) as [-> | Hy]; [|tauto].
  destruct (decide (x ∈ s)); tauto.
Qed.

(** X1: a click on a group header flips whether that group is expanded and
    no other group's; a second click on the same header restores the view;
    and nothing but the set of expanded groups is touched. *)
Theorem toggleGroup_flips_one (p : Z) (v : View) :
  (p ∈ expandedGroups (toggleGroup p v) <-> p ∉ expandedGroups v) /\
  (forall q, q <> p ->
     (q ∈ expandedGroups (toggleGroup p v) <-> q ∈ expandedGroups v)) /\
  expandedGroups (toggleGroup p (toggleGroup p v)) = expandedGroups v /\
  groups (toggleGroup p v) = groups v /\ loading (toggleGroup p v) = loading v /\
  statusMsg (toggleGroup p v) = statusMsg v.
Proof.
  unfold toggleGroup. cbn [expandedGroups set_expanded groups loading statusMsg].
  split; [|split; [|split]].
  - rewrite toggle_member_elem. intuition.
  - intros q Hq. rewrite toggle_member_elem. intuition.
  - apply toggle_member_twice.
  - done.
Qed.

(** ** Filter buttons *)

Lemma counted_once (g : ProcessGroup) :
  list_sum (map (fun t => if counted_under t g then 1%nat else 0%nat)
                ALL_INSTANCE_TYPES) = 1%nat.
Proof.
  unfold counted_under, ALL_INSTANCE_TYPES, includes.
  generalize (getGroupLabel g). intros l. cbn [map existsb list_sum foldr].
  unfold str_eqb.
  destruct (String.eqb_spec l "Stable") as [-> | _]; [reflexivity|].
  destruct (String.eqb_spec l "Beta") as [-> | _]; [reflexivity|].
  destruct (String.eqb_spec l "Dev") as [-> | _]; [reflexivity|].
  destruct (String.eqb_spec l "Canary") as [-> | _]; [reflexivity|].
  destruct (String.eqb_spec l "Internal") as [-> | _]; [reflexivity|].
  destruct (String.eqb_spec l "WebView2") as [-> | _]; [reflexivity|].
  destruct (String.eqb_spec l "Copilot") as [-> | _]; reflexivity.
Qed.

Lemma type_count_sum (gs : list ProcessGroup) (types : list string) :
  list_sum (map (type_count gs) types)
  = list_sum (map (fun g => list_sum (map (fun t => if counted_under t g
                                                    then 1%nat else 0%nat) types)) gs).
Proof.
  unfold type_count. induction gs as [|g gs IH]; simpl.
  - induction types as [|t types IHt]; simpl; [done | by rewrite IHt].
  - rewrite <- IH. clear IH. induction types as [|t types IHt]; simpl; [done|].
    rewrite IHt. destruct (counted_under t g); simpl; lia.
Qed.

Lemma counted_under_button (g : ProcessGroup) (t : string) :
  t ∈ ALL_INSTANCE_TYPES ->
  counted_under t g = true <->
  t = if includes ["Beta"; "Dev"; "Canary"; "Internal"; "WebView2"; "Copilot"]
                  (getGroupLabel g)
      then getGroupLabel g else "Stable".
Proof.
  unfold counted_under, ALL_INSTANCE_TYPES, includes.
  generalize (getGroupLabel g). intros l Ht. cbn [existsb].
  apply list_elem_of_In in Ht. simpl in Ht.
  unfold str_eqb.
  destruct (String.eqb_spec l "Beta") as [-> | ?];
    [|destruct (String.eqb_spec l "Dev") as [-> | ?];
      [|destruct (String.eqb_spec l "Canary") as [-> | ?];
        [|destruct (String.eqb_spec l "Internal") as [-> | ?];
          [|destruct (String.eqb_spec l "WebView2") as [-> | ?];
            [|destruct (String.eqb_spec l "Copilot") as [-> | ?]]]]]];
    destruct Ht as [<- | [<- | [<- | [<- | [<- | [<- | [<- | []]]]]]]];
    cbn [orb andb negb String.eqb Ascii.eqb Bool.eqb];
    try (split; [discriminate | discriminate]);
    try (split; reflexivity);
    try (rewrite orb_true_r; split; reflexivity);
    try (rewrite orb_false_r);
    try (split; [by intros ->%String.eqb_eq | by intros ?%String.eqb_eq]);
    try (split; [intros ?%String.eqb_eq; congruence | congruence]).
Qed.

(** X2: the numbers on the seven filter buttons add up to the number of
    groups: every group, whatever its label, is counted on exactly one
    button, the button of its label when the label is Beta, Dev, Canary,
    Internal, WebView2 or Copilot, and the Stable button for every other
    label. *)
Theorem buttons_count_every_group (gs : list ProcessGroup) :
  list_sum (map (type_count gs) ALL_INSTANCE_TYPES) = length gs /\
  (forall g, length (List.filter (fun t => counted_under t g) ALL_INSTANCE_TYPES)
             = 1%nat) /\
  (forall g t, t ∈ ALL_INSTANCE_TYPES ->
     (counted_under t g = true <->
      t = if includes ["Beta"; "Dev"; "Canary"; "Internal"; "WebView2"; "Copilot"]
                      (getGroupLabel g)
          then getGroupLabel g else "Stable")).
Proof.
  split; [|split].
  - rewrite type_count_sum.
    rewrite (map_ext _ (fun _ => 1%nat) counted_once).
    induction gs as [|g gs IH]; simpl; [done | by rewrite IH].
  - intros g. rewrite <- (counted_once g).
    generalize ALL_INSTANCE_TYPES. intros ts.
    induction ts as [|t ts IH]; simpl; [done|].
    destruct (counted_under t g); simpl; by rewrite IH.
  - intros g t. apply counted_under_button.
Qed.

Lemma includes_same_six (l : string) :
  includes ["WebView2"; "Copilot"; "Beta"; "Dev"; "Canary"; "Internal"] l
  = includes ["Beta"; "Dev"; "Canary"; "Internal"; "WebView2"; "Copilot"] l.
Proof.
  unfold includes. cbn [existsb].
  destruct (str_eqb l "WebView2"), (str_eqb l "Copilot"), (str_eqb l "Beta"),
    (str_eqb l "Dev"), (str_eqb l "Canary"), (str_eqb l "Internal"); reflexivity.
Qed.

Lemma includes_elem (names : list string) (l : string) :
  includes names l = true <-> l ∈ names.
Proof.
  unfold includes. rewrite existsb_exists. split.
  - intros (x & Hx & ->%str_eqb_true). by apply list_elem_of_In.
  - intros Hl. exists l. split; [by apply list_elem_of_In | apply str_eqb_refl].
Qed.

Lemma six_are_buttons (l : string) :
  includes ["Beta"; "Dev"; "Canary"; "Internal"; "WebView2"; "Copilot"] l = true ->
  l ∈ ALL_INSTANCE_TYPES.
Proof.
  rewrite includes_elem. unfold ALL_INSTANCE_TYPES. intros H. by right.
Qed.

Lemma group_visible_iff (hidden : gset string) (g : ProcessGroup) :
  (forall t, t ∈ hidden -> t ∈ ALL_INSTANCE_TYPES) ->
  group_visible hidden g = true <->
  forall t, t ∈ ALL_INSTANCE_TYPES -> counted_under t g = true -> t ∉ hidden.
Proof.
  intros Hnames. unfold group_visible, counted_under.
  rewrite includes_same_six. generalize (getGroupLabel g). intros l.
  set (six := includes _ l).
  case_bool_decide as Hl.
  - split; [done|]. intros Hall. exfalso.
    apply (Hall l); [by apply Hnames | | done].
    by rewrite str_eqb_refl.
  - case_bool_decide as Hs.
    + destruct six eqn:Hsix; simpl.
      * split; [|done]. intros _ t Ht Hc.
        rewrite andb_false_r, orb_false_r in Hc. by apply str_eqb_true in Hc as <-.
      * split; [done|]. intros Hall. exfalso.
        apply (Hall "Stable"); [by left | | done].
        by rewrite str_eqb_refl, orb_true_r.
    + rewrite andb_false_r. split; [|done]. intros _ t Ht Hc.
      apply orb_true_iff in Hc as [->%str_eqb_true | [->%str_eqb_true _]%andb_true_iff];
        done.
Qed.

(** X3: as long as the set of hidden types holds only names of filter
    buttons, a group is listed exactly when the button it is counted on is
    not hidden. *)
Theorem group_listed_iff_button_on (hidden : gset string) (g : ProcessGroup)
    (Hnames : forall t, t ∈ hidden -> t ∈ ALL_INSTANCE_TYPES) :
  group_visible hidden g = true <->
  forall t, t ∈ ALL_INSTANCE_TYPES -> counted_under t g = true -> t ∉ hidden.
Proof. by apply group_visible_iff. Qed.

Lemma after_clicks_names (clicks : list string) (hidden : gset string) :
  Forall (fun t => t ∈ ALL_INSTANCE_TYPES) clicks ->
  (forall t, t ∈ hidden -> t ∈ ALL_INSTANCE_TYPES) ->
  forall t, t ∈ after_clicks clicks hidden -> t ∈ ALL_INSTANCE_TYPES.
Proof.
  intros Hclicks. revert hidden.
  induction Hclicks as [|c clicks Hc _ IH]; intros hidden Hnames; [done|].
  simpl. apply IH. intros t [[-> _] | [_ Ht]]%toggle_member_elem; auto.
Qed.

(** X4: starting from the default (WebView2 hidden), clicks on the filter
    buttons keep the set of hidden types within the buttons' names, so that
    a group is always listed exactly when its button is on; clicking the
    same button twice in a row changes nothing. *)
Theorem clicks_keep_filter_consistent (clicks : list string)
    (Hclicks : Forall (fun t => t ∈ ALL_INSTANCE_TYPES) clicks) :
  let hidden := after_clicks clicks default_hidden in
  (forall t, t ∈ hidden -> t ∈ ALL_INSTANCE_TYPES) /\
  (forall g, group_visible hidden g = true <->
     forall t, t ∈ ALL_INSTANCE_TYPES -> counted_under t g = true -> t ∉ hidden) /\
  (forall t, toggleHiddenType t (toggleHiddenType t hidden) = hidden).
Proof.
  intros hidden.
  assert (Hnames : forall t, t ∈ hidden -> t ∈ ALL_INSTANCE_TYPES).
  { apply after_clicks_names; [done|]. unfold default_hidden.
    intros t ->%elem_of_singleton. unfold ALL_INSTANCE_TYPES. set_solver. }
  split; [done|]. split.
  - intros g. by apply group_visible_iff.
  - intros t. apply toggle_member_twice.
Qed.

(** With the default filter, the Canary browser is listed exactly when no
    button it is counted on is hidden. *)
Lemma group_listed_iff_button_on_witness :
  group_visible default_hidden (group_100 [] "" "") = true <->
  forall t, t ∈ ALL_INSTANCE_TYPES ->
            counted_under t (group_100 [] "" "") = true -> t ∉ default_hidden.
Proof.
  apply (group_listed_iff_button_on default_hidden (group_100 [] "" "")).
  intros t Ht. unfold default_hidden in Ht. apply elem_of_singleton in Ht.
  rewrite Ht. unfold ALL_INSTANCE_TYPES. do 5 right. left.
Defined.

(** WebView2 shown, Canary hidden, then Beta clicked twice. *)
Lemma clicks_keep_filter_consistent_witness :
  toggleHiddenType "Beta"
    (toggleHiddenType "Beta" (after_clicks ["WebView2"; "Canary"] default_hidden))
  = after_clicks ["WebView2"; "Canary"] default_hidden.
Proof.
  refine (proj2 (proj2 (clicks_keep_filter_consistent ["WebView2"; "Canary"] _)) "Beta").
  constructor; [|constructor; [|constructor]];
    apply list_elem_of_In; simpl; auto 10.
Defined.

(** ** The arguments column *)

Lemma arg_listed_true (a : string) :
  arg_listed a = true ->
  startsWith a "--" = true /\ startsWith a "--type=" = false /\
  startsWith a "--mojo" = false /\ startsWith a "--field-trial" = false /\
  startsWith a "--remote-debugging-port" = false /\
  startsWith a "--subproc-heap-profiling" = false /\
  startsWith a "--utility-sub-type" = false.
Proof.
  unfold arg_listed. rewrite !andb_true_iff, !negb_true_iff. tauto.
Qed.

Lemma prefix_trans (p q s : string) :
  String.prefix p q = true -> String.prefix q s = true -> String.prefix p s = true.
Proof.
  revert p q. induction s as [|c s IH]; intros [|a p] [|b q]; simpl; try done.
  destruct (ascii_dec a b) as [-> | ?]; [|done].
  destruct (ascii_dec b c) as [-> | ?]; [|done]. apply IH.
Qed.

(** X5: the arguments cell lists at most three arguments, taken in order
    from the command line after its first element; each begins with [--]
    and with none of [--type=], [--mojo], [--field-trial],
    [--remote-debugging-port], [--subproc-heap-profiling] and
    [--utility-sub-type]; when at most three arguments after the first
    pass that test, all of them are listed; and a process without a
    command line has an empty cell. *)
Theorem args_cell_content (proc : ProcessInfo) :
  (length (args_listed proc) <= 3)%nat /\
  args_listed proc `sublist_of` drop 1 (cmd_args proc) /\
  Forall (fun a =>
            startsWith a "--" = true /\
            startsWith a "--type=" = false /\ startsWith a "--mojo" = false /\
            startsWith a "--field-trial" = false /\
            startsWith a "--remote-debugging-port" = false /\
            startsWith a "--subproc-heap-profiling" = false /\
            startsWith a "--utility-sub-type" = false)
         (args_listed proc) /\
  ((length (List.filter arg_listed (drop 1 (cmd_args proc))) <= 3)%nat ->
   args_listed proc = List.filter arg_listed (drop 1 (cmd_args proc))) /\
  (cmd_args proc = [] -> args_cell proc = "").
Proof.
  unfold args_cell, args_listed. split; [|split; [|split; [|split]]].
  - rewrite length_take. lia.
  - etrans; [apply sublist_take|]. clear.
    induction (drop 1 (cmd_args proc)) as [|a l IH]; simpl; [done|].
    destruct (arg_listed a); [by apply sublist_skip | by apply sublist_cons].
  - apply Forall_forall. intros a Ha. apply elem_of_take in Ha as (i & Ha & _).
    apply list_elem_of_lookup_2, list_elem_of_In, filter_In in Ha as [_ Ha].
    by apply arg_listed_true.
  - intros Hle. by apply take_ge.
  - by intros ->.
Qed.


(** ** What a run of events leaves on screen *)

Lemma carry_proc_same_but_debug urlMap proc : same_but_debug proc (carry_proc urlMap proc).
Proof.
  unfold carry_proc. destruct (urlMap !! pid proc) as [[u t]|]; repeat split.
Qed.

Lemma carry_forward_same_frame prev data :
  Forall2 same_frame data (carry_forward prev data).
Proof.
  unfold carry_forward. apply Forall2_fmap_r, Forall_Forall2_diag, Forall_forall.
  intros g _. repeat split. simpl.
  apply Forall2_fmap_r, Forall_Forall2_diag, Forall_forall.
  intros. apply carry_proc_same_but_debug.
Qed.

Lemma same_but_debug_trans p q r :
  same_but_debug p q -> same_but_debug q r -> same_but_debug p r.
Proof. unfold same_but_debug. intuition congruence. Qed.

Lemma same_frame_trans g h k : same_frame g h -> same_frame h k -> same_frame g k.
Proof.
  intros (? & ? & ? & ? & ? & Hgh) (? & ? & ? & ? & ? & Hhk).
  repeat split; try congruence.
  revert Hhk. generalize (processes k). induction Hgh as [|p q ps qs Hpq _ IH];
    intros rs Hhk; inversion Hhk; subst; constructor; [|by apply IH].
  by eapply same_but_debug_trans.
Qed.

Lemma same_frames_trans (gs hs ks : list ProcessGroup) :
  Forall2 same_frame gs hs -> Forall2 same_frame hs ks -> Forall2 same_frame gs ks.
Proof.
  intros Hgh. revert ks. induction Hgh as [|g h gs hs Hg _ IH];
    intros ks Hhk; inversion Hhk; subst; constructor; [|by apply IH].
  by eapply same_frame_trans.
Qed.

Lemma groups_step_snapshot cycle showLoading data v :
  groups (step (SnapshotOk cycle showLoading data) v) = carry_forward (groups v) data.
Proof. by destruct showLoading. Qed.



Lemma run_same_frame tr v base :
  Forall2 same_frame base (groups v) ->
  Forall2 same_frame (last_snapshot tr base) (groups (run tr v)).
Proof.
  revert v base. induction tr as [|e tr IH]; intros v base Hbase; [done|].
  simpl. apply IH. destruct e as [c sl | c sl data | c sl err | c pm | c].
  - by destruct sl.
  - rewrite groups_step_snapshot. apply carry_forward_same_frame.
  - by destruct sl.
  - eapply same_frames_trans; [exact Hbase | apply step_cdp_same_frame].
  - done.
Qed.


Lemma urlMap_no_urls (l : list ProcessInfo) (m : gmap Z (string * string)) (p : Z) :
  (forall old, old ∈ l -> pid old = p -> url old = "") ->
  foldl urlMap_add m l !! p = m !! p.
Proof.
  revert m. induction l as [|a l IH]; intros m Hno; simpl; [done|].
  rewrite IH by (intros old Hold; apply Hno; by right).
  rewrite urlMap_add_lookup.
  destruct (truthy_str (url a)) eqn:Ht; simpl; [|done].
  destruct (Z.eqb_spec (pid a) p) as [Hp | _]; [|done].
  apply truthy_str_true in Ht. destruct Ht. apply Hno; [by left | done].
Qed.

Lemma carry_proc_no_url prev new :
  (forall old, old ∈ all_records prev -> pid old = pid new -> url old = "") ->
  carry_proc (build_urlMap prev) new = new.
Proof.
  intros Hno. unfold carry_proc.
  by rewrite build_urlMap_flat, (urlMap_no_urls _ _ _ Hno), lookup_empty.
Qed.

(** X7: publishing hands a record on exactly as the snapshot delivered it
    when the list shown before has no URL for its pid; so the first
    snapshot, and any snapshot published over a list without URLs, is
    published unchanged. *)
Theorem record_without_history_untouched (prev data : list ProcessGroup) :
  (forall gi pi g new,
     data !! gi = Some g -> processes g !! pi = Some new ->
     (forall old, old ∈ all_records prev -> pid old = pid new -> url old = "") ->
     exists g', carry_forward prev data !! gi = Some g' /\
                processes g' !! pi = Some new) /\
  ((forall old, old ∈ all_records prev -> url old = "") ->
   carry_forward prev data = data).
Proof.
  split.
  - intros gi pi g new Hg Hnew Hno.
    destruct (carry_forward_lookup prev data gi pi g new Hg Hnew) as (g' & Hg' & Hr).
    exists g'. split; [done|]. by rewrite Hr, carry_proc_no_url.
  - intros Hno. unfold carry_forward.
    erewrite map_ext; [apply map_id|]. intros g. simpl.
    erewrite map_ext; [rewrite map_id; apply with_processes_same|].
    intros new. apply carry_proc_no_url. intros old Hold _. by apply Hno.
Qed.

(** The first snapshot is published as delivered. *)
Lemma record_without_history_untouched_witness :
  carry_forward [] [group_100 debug_args "" ""] = [group_100 debug_args "" ""].
Proof.
  refine (proj2 (record_without_history_untouched [] [group_100 debug_args "" ""]) _).
  intros old Hold. apply elem_of_nil in Hold. destruct Hold.
Defined.

(** ** Expanded groups, the spinner and the status card across refreshes *)

Lemma elem_of_expand_all (p : Z) (data : list ProcessGroup) :
  p ∈ expand_all data <->
  exists g, g ∈ data /\ browser_pid g = p /\ group_instance_type g <> "WebView2".
Proof.
  unfold expand_all. rewrite elem_of_list_to_set, list_elem_of_In, in_map_iff. split.
  - intros (g & Hp & [Hg Hw]%filter_In). exists g.
    rewrite list_elem_of_In. apply negb_true_iff, str_eqb_false in Hw. done.
  - intros (g & Hg & Hp & Hw). exists g. split; [done|].
    apply filter_In. rewrite <- list_elem_of_In.
    split; [done|]. by apply negb_true_iff, str_eqb_false.
Qed.

(** X8: after a manual refresh has fetched a snapshot, the expanded groups
    are exactly the roots of the snapshot's groups that are not WebView2,
    whatever the user had expanded or collapsed before. *)
Theorem manual_refresh_resets_expanded (cycle : nat) (data : list ProcessGroup)
    (v : View) :
  (forall p, p ∈ expandedGroups (step (SnapshotOk cycle true data) v) <->
     exists g, g ∈ data /\ browser_pid g = p /\ group_instance_type g <> "WebView2") /\
  (forall q, expandedGroups (step (SnapshotOk cycle true data) (toggleGroup q v))
             = expandedGroups (step (SnapshotOk cycle true data) v)).
Proof.
  split; [|done]. intros p. apply elem_of_expand_all.
Qed.

Lemma step_timer_driven e v :
  timer_driven e ->
  loading (step e v) = loading v /\ expandedGroups (step e v) = expandedGroups v.
Proof.
  destruct e as [c sl | c sl data | c sl err | c pm | c]; simpl.
  - by intros ->.
  - by intros ->.
  - by intros ->.
  - intros _. by destruct (step_cdp_rest c pm v) as (? & ? & _).
  - done.
Qed.

(** X9: timer-driven cycles and the answers of the debug endpoint, in any
    number and order, neither raise nor lower the busy indication and leave
    the user's expanded and collapsed groups as they are. *)
Theorem timer_refresh_keeps_spinner (tr : list event) (v : View)
    (Htimer : Forall timer_driven tr) :
  loading (run tr v) = loading v /\
  expandedGroups (run tr v) = expandedGroups v.
Proof.
  revert v. induction Htimer as [|e tr He _ IH]; intros v; [done|].
  change (run (e :: tr) v) with (run tr (step e v)).
  destruct (IH (step e v)) as [H1 H2]. rewrite H1, H2.
  by apply step_timer_driven.
Qed.

(** Two timer cycles over a view whose user has collapsed the group. *)
Lemma timer_refresh_keeps_spinner_witness :
  loading (run two_quiet_cycles (showing (group_100 debug_args "" ""))) = false /\
  expandedGroups (run two_quiet_cycles (showing (group_100 debug_args "" ""))) = ∅.
Proof.
  apply (timer_refresh_keeps_spinner two_quiet_cycles
           (showing (group_100 debug_args "" ""))).
  unfold two_quiet_cycles. repeat constructor.
Defined.

Lemma statusMsg_step e v : statusMsg (step e v) = statusMsg v.
Proof.
  destruct e as [c sl | c sl data | c sl err | c pm | c];
    try (by destruct sl); [|done].
  by destruct (step_cdp_rest c pm v) as (_ & _ & ? & _).
Qed.

Lemma statusMsg_run tr v : statusMsg (run tr v) = statusMsg v.
Proof.
  revert v. induction tr as [|e tr IH]; intros v; [done|].
  simpl. by rewrite IH, statusMsg_step.
Qed.

(** X10: no refresh event writes the status message. So the error of a
    failed terminate or debug command, shown as [Error: ...], stays on
    screen through any refreshes and answers until it is dismissed, and a
    dismissed card stays away. *)
Theorem status_outlives_refresh (tr : list event) (v : View) :
  statusMsg (run tr v) = statusMsg v /\
  (forall err,
     statusMsg (run tr (handleTerminate (Rejected err) v)) = "Error: " +:+ err /\
     statusMsg (run tr (handleDebug (Rejected err) v)) = "Error: " +:+ err /\
     status_shown (run tr (handleTerminate (Rejected err) v)) /\
     status_shown (run tr (handleDebug (Rejected err) v))) /\
  (forall result,
     statusMsg (run tr (handleTerminate (Resolved result) v)) = result /\
     statusMsg (run tr (handleDebug (Resolved result) v)) = result) /\
  ~ status_shown (run tr (dismiss v)).
Proof.
  split; [apply statusMsg_run|]. split; [|split].
  - intros err. unfold status_shown. rewrite !statusMsg_run. simpl. done.
  - intros result. by rewrite !statusMsg_run.
  - unfold status_shown. rewrite statusMsg_run. simpl. by intros [].
Qed.

Lemma counts_step e v :
  cdp_calls (step e v)
    = (cdp_calls v + snapshots_fetched [e])%nat /\
  length (console (step e v))
    = (length (console v) + snapshots_failed [e])%nat.
Proof.
  destruct e as [c sl | c sl data | c sl err | c pm | c];
    unfold snapshots_fetched, snapshots_failed.
  - destruct sl; simpl; lia.
  - destruct sl; simpl; lia.
  - destruct sl; simpl; rewrite length_app; simpl; lia.
  - destruct (step_cdp_rest c pm v) as (_ & _ & _ & Hc & Hq).
    cbv zeta in Hc, Hq. rewrite Hc, Hq. simpl. lia.
  - simpl. lia.
Qed.

(** X11: a run sends exactly one debug query per snapshot it fetched, none
    for a snapshot query that was rejected, and writes exactly one console
    line per rejected snapshot query; answers of the debug endpoint, failed
    or not, send and write nothing. *)
Theorem one_query_per_snapshot (tr : list event) (v : View) :
  cdp_calls (run tr v) = (cdp_calls v + snapshots_fetched tr)%nat /\
  length (console (run tr v)) = (length (console v) + snapshots_failed tr)%nat.
Proof.
  revert v. induction tr as [|e tr IH]; intros v.
  - unfold snapshots_fetched, snapshots_failed. simpl. lia.
  - change (run (e :: tr) v) with (run tr (step e v)).
    destruct (IH (step e v)) as [H1 H2]. rewrite H1, H2.
    destruct (counts_step e v) as [H3 H4]. rewrite H3, H4.
    unfold snapshots_fetched, snapshots_failed. simpl.
    destruct e; simpl; lia.
Qed.

(** ** More on the display sort *)

Section SortFacts.
Context {A : Type} (key : A -> Z).

Let cmp (a b : A) : Z := key a - key b.

Lemma array_sort_fixed l :
  StronglySorted (fun a b => key a <= key b) l -> array_sort cmp l = l.
Proof.
  induction 1 as [|x l Hl IH Hx]; simpl; [done|].
  rewrite IH. destruct Hx as [|y l Hy _]; simpl; [done|].
  unfold cmp at 1. destruct (Z.leb_spec (key x - key y) 0); [done | lia].
Qed.

Lemma sort_insert_map (h : A -> A) x l :
  (forall a, key (h a) = key a) ->
  sort_insert cmp (h x) (map h l) = map h (sort_insert cmp x l).
Proof.
  intros Hh. induction l as [|y l IH]; simpl; [done|].
  unfold cmp at 1 3. rewrite !Hh.
  destruct (key x - key y <=? 0); simpl; [done | by rewrite IH].
Qed.

Lemma array_sort_map (h : A -> A) l :
  (forall a, key (h a) = key a) ->
  array_sort cmp (map h l) = map h (array_sort cmp l).
Proof.
  intros Hh. induction l as [|x l IH]; simpl; [done|].
  by rewrite IH, sort_insert_map.
Qed.

End SortFacts.

(** X12: sorting rows that are already sorted changes nothing: the display
    sort applied to its own output returns it. *)
Theorem sortProcesses_twice (procs : list ProcessInfo) :
  sortProcesses (sortProcesses procs) = sortProcesses procs /\
  (StronglySorted (fun a b => order_of a <= order_of b) procs ->
   sortProcesses procs = procs).
Proof.
  split.
  - apply (array_sort_fixed order_of), sortProcesses_sorted.
  - apply (array_sort_fixed order_of).
Qed.

(** Browser first, then the renderer: the list is handed back. *)
Lemma sortProcesses_twice_witness :
  sortProcesses (processes (group_100 [] "" "")) = processes (group_100 [] "" "").
Proof.
  apply (proj2 (sortProcesses_twice (processes (group_100 [] "" "")))).
  repeat constructor; vm_compute; discriminate.
Defined.

Lemma order_of_type p q : process_type p = process_type q -> order_of p = order_of q.
Proof. unfold order_of, type_key. by intros ->. Qed.

Lemma sortProcesses_map (h : ProcessInfo -> ProcessInfo) procs :
  (forall p, process_type (h p) = process_type p) ->
  sortProcesses (map h procs) = map h (sortProcesses procs).
Proof.
  intros Hh. apply (array_sort_map order_of). intros a. by apply order_of_type.
Qed.

Lemma patched_group_processes portMap g :
  exists h : ProcessInfo -> ProcessInfo,
    (forall p, same_but_debug p (h p)) /\
    processes (patched_group portMap g) = map h (processes g).
Proof.
  unfold patched_group. destruct (pages_for portMap (processes g)) as [pages|].
  - exists (patched pages). split; [apply patched_same_but_debug | done].
  - exists id. split; [by repeat split | by rewrite map_id].
Qed.

(** X13: the order of a group's rows does not depend on debug data: the
    rows of a group after an answer has been applied, and the rows of a
    published group after carry-forward, are the sorted rows the group had
    before, each with its own new debug fields, so the pids come in the
    same order. *)
Theorem answers_do_not_reorder_rows (portMap : PortMap) (prev : list ProcessGroup)
    (g : ProcessGroup) :
  map pid (sortProcesses (processes (patched_group portMap g)))
    = map pid (sortProcesses (processes g)) /\
  sortProcesses (map (carry_proc (build_urlMap prev)) (processes g))
    = map (carry_proc (build_urlMap prev)) (sortProcesses (processes g)) /\
  (forall pages, sortProcesses (map (patched pages) (processes g))
                 = map (patched pages) (sortProcesses (processes g))).
Proof.
  split; [|split].
  - destruct (patched_group_processes portMap g) as (h & Hh & ->).
    rewrite sortProcesses_map by (intros p; by destruct (Hh p) as (_&_&_&_&_&_&_& -> &_)).
    rewrite map_map. apply map_ext. intros p. by destruct (Hh p) as [-> _].
  - apply sortProcesses_map. intros p.
    by destruct (carry_proc_same_but_debug (build_urlMap prev) p) as (_&_&_&_&_&_&_& -> &_).
  - intros pages. apply sortProcesses_map. intros p.
    by destruct (patched_same_but_debug pages p) as (_&_&_&_&_&_&_& -> &_).
Qed.

Lemma filter_all {A} (f : A -> bool) (l : list A) :
  Forall (fun x => f x = true) l -> List.filter f l = l.
Proof.
  induction 1 as [|x l Hx _ IH]; simpl; [done|]. by rewrite Hx, IH.
Qed.

Lemma members_with_extension_built : StronglySorted precedes members_with_extension.
Proof.
  repeat constructor; vm_compute; (by left) || (right; split; [done | discriminate]).
Qed.

(** X20: on members that come ordered by role precedence and then by pid,
    as the builder hands them over, the display sort leaves every member
    that is no extension where it is relative to the others: the rows
    without the extensions are the members without the extensions, still
    by precedence and then ascending pid; and a list without extensions is
    handed back as it is. *)
Theorem built_members_keep_order (procs : list ProcessInfo)
    (Hbuilt : StronglySorted precedes procs) :
  List.filter (fun p => negb (is_extension p)) (sortProcesses procs)
    = List.filter (fun p => negb (is_extension p)) procs /\
  StronglySorted precedes
    (List.filter (fun p => negb (is_extension p)) (sortProcesses procs)) /\
  (Forall (fun p => is_extension p = false) procs -> sortProcesses procs = procs).
Proof.
  assert (Hkeep : List.filter (fun p => negb (is_extension p)) (sortProcesses procs)
                  = List.filter (fun p => negb (is_extension p)) procs).
  { unfold sortProcesses. rewrite (array_sort_filter order_of).
    apply (array_sort_of_sorted order_of).
    eapply filter_sorted_mono; [|exact Hbuilt].
    intros a b Ha Hb. apply negb_true_iff in Ha, Hb. by apply precedes_order_of. }
  split; [done|]. split.
  - rewrite Hkeep. eapply filter_sorted_mono; [|exact Hbuilt]. done.
  - intros Hnone.
    assert (Hall : Forall (fun p => negb (is_extension p) = true) procs).
    { eapply Forall_impl; [exact Hnone|]. simpl. by intros p ->. }
    rewrite (filter_all _ procs Hall) in Hkeep.
    rewrite filter_all in Hkeep; [done|].
    apply Forall_forall. intros p Hp. rewrite Forall_forall in Hall. apply Hall.
    by rewrite <- (array_sort_perm order_of procs).
Qed.

(** The rows of the group with an extension: Browser, Renderer and GPU keep
    their order. *)
Lemma built_members_keep_order_witness :
  List.filter (fun p => negb (is_extension p)) (sortProcesses members_with_extension)
  = [member 100 "Browser"; member 4 "Renderer"; member 6 "GPU"].
Proof.
  exact (proj1 (built_members_keep_order members_with_extension
                  members_with_extension_built)).
Defined.

(** ** Strings: prefixes and pieces *)

Lemma str_app_nil_l (s : string) : "" +:+ s = s.
Proof. reflexivity. Qed.

Lemma str_app_cons (a : ascii) (s t : string) : String a s +:+ t = String a (s +:+ t).
Proof. reflexivity. Qed.

Lemma str_app_nil_r (s : string) : s +:+ "" = s.
Proof.
  induction s as [|a s IH]; [done|]. by rewrite str_app_cons, IH.
Qed.

Lemma str_app_assoc (a b c : string) : (a +:+ b) +:+ c = a +:+ (b +:+ c).
Proof.
  induction a as [|x a IH]; [done|]. by rewrite !str_app_cons, IH.
Qed.

Lemma prefix_app (p s : string) :
  String.prefix p s = true <-> exists r, s = p +:+ r.
Proof.
  revert s. induction p as [|a p IH]; intros s.
  - destruct s; simpl; split; eauto.
  - destruct s as [|b s]; simpl.
    + split; [done | by intros (r & ?)].
    + destruct (ascii_dec a b) as [<- | Hne].
      * rewrite IH. split; intros (r & Hr); exists r;
          rewrite ?str_app_cons in *; congruence.
      * split; [done|]. intros (r & Hr). rewrite str_app_cons in Hr. congruence.
Qed.

Lemma string_drop_app (p r : string) : string_drop (String.length p) (p +:+ r) = r.
Proof.
  induction p as [|a p IH]; [by destruct r|]. by rewrite str_app_cons.
Qed.

Lemma replace_first_prefix (pat rep s : string) :
  String.prefix pat s = true ->
  replace_first pat rep s = rep +:+ string_drop (String.length pat) s.
Proof. intros H. destruct s; simpl in *; by rewrite H. Qed.

Lemma has_char_app c (a b : string) :
  has_char c (a +:+ b) = has_char c a || has_char c b.
Proof.
  induction a as [|x a IH]; [done|].
  rewrite str_app_cons. simpl. by rewrite IH, orb_assoc.
Qed.

Lemma rev_app_app (s acc : string) : String.rev_app s acc = String.rev s +:+ acc.
Proof.
  unfold String.rev. revert acc. induction s as [|a s IH]; intros acc; simpl; [done|].
  rewrite (IH (String a acc)), (IH (String a "")). by rewrite str_app_assoc.
Qed.

Lemma rev_cons (a : ascii) (s : string) :
  String.rev (String a s) = String.rev s +:+ String a "".
Proof. unfold String.rev at 1. simpl. apply rev_app_app. Qed.

Lemma has_char_rev c (s : string) : has_char c (String.rev s) = has_char c s.
Proof.
  induction s as [|a s IH]; [done|].
  rewrite rev_cons, has_char_app, IH. simpl.
  rewrite orb_false_r. apply orb_comm.
Qed.

(** Up to the first separator. *)
Lemma split_go_head c (a tail cur : string) :
  has_char c a = false ->
  tail = "" \/ String.prefix (String c "") tail = true ->
  exists more, split_go c (a +:+ tail) cur = (String.rev cur +:+ a) :: more.
Proof.
  revert cur. induction a as [|x a IH]; intros cur Ha Htail.
  - rewrite str_app_nil_l, str_app_nil_r. destruct Htail as [-> | Htail]; simpl; [eauto|].
    apply prefix_app in Htail as (r & ->). rewrite str_app_cons. simpl.
    rewrite Ascii.eqb_refl. eauto.
  - simpl in Ha. apply orb_false_iff in Ha as [Hx Ha].
    rewrite str_app_cons. simpl. rewrite Hx.
    destruct (IH (String x cur) Ha Htail) as (more & ->). exists more.
    by rewrite rev_cons, str_app_assoc.
Qed.

Lemma split_go_whole c (s cur : string) :
  has_char c s = false -> split_go c s cur = [String.rev cur +:+ s].
Proof.
  revert cur. induction s as [|x s IH]; intros cur Hs; simpl in *.
  - by rewrite str_app_nil_r.
  - apply orb_false_iff in Hs as [Hx Hs]. rewrite Hx.
    rewrite (IH (String x cur) Hs). by rewrite rev_cons, str_app_assoc.
Qed.

Lemma split_go_nonempty c (s cur : string) : split_go c s cur <> [].
Proof.
  revert cur. induction s as [|x s IH]; intros cur; simpl; [done|].
  destruct (Ascii.eqb x c); [done | apply IH].
Qed.

Lemma split_go_two c (s cur : string) :
  has_char c s = true -> (2 <= length (split_go c s cur))%nat.
Proof.
  revert cur. induction s as [|x s IH]; intros cur Hs; simpl in *; [done|].
  destruct (Ascii.eqb x c); simpl in *; [|by apply IH].
  pose proof (split_go_nonempty c s "") as Hne.
  destruct (split_go c s ""); [done | simpl; lia].
Qed.

Lemma split_go_pieces c (s cur : string) :
  has_char c cur = false ->
  Forall (fun piece => has_char c piece = false) (split_go c s cur).
Proof.
  revert cur. induction s as [|x s IH]; intros cur Hcur; simpl.
  - constructor; [by rewrite has_char_rev | constructor].
  - destruct (Ascii.eqb x c) eqn:Hx.
    + constructor; [by rewrite has_char_rev | by apply IH].
    + apply IH. simpl. by rewrite Hx.
Qed.

Lemma split_go_last c (pre l cur d : string) :
  has_char c l = false ->
  List.last (split_go c (pre +:+ String c l) cur) d = l.
Proof.
  intros Hl. revert cur. induction pre as [|x pre IH]; intros cur.
  - rewrite str_app_nil_l. simpl.
    rewrite Ascii.eqb_refl, (split_go_whole c l "" Hl). done.
  - rewrite str_app_cons. simpl. destruct (Ascii.eqb x c); [|apply IH].
    specialize (IH "").
    pose proof (split_go_nonempty c (pre +:+ String c l) "") as Hne.
    destruct (split_go c (pre +:+ String c l) ""); done.
Qed.

Lemma last_Forall {A} (P : A -> Prop) (l : list A) (d : A) :
  P d -> Forall P l -> P (List.last l d).
Proof.
  intros Hd. induction 1 as [|x l Hx Hl IH]; [done|].
  simpl. destruct l; [done | exact IH].
Qed.

(** ** The CDP badge and the port *)

Lemma existsb_false_iff {A} (f : A -> bool) (l : list A) :
  existsb f l = false <-> forall x, x ∈ l -> f x = false.
Proof.
  induction l as [|y l IH]; simpl.
  - split; [|done]. intros _ x Hx. by apply elem_of_nil in Hx.
  - rewrite orb_false_iff, IH. split.
    + intros [Hy Hl] x [-> | Hx]%elem_of_cons; auto.
    + intros H. split; [apply H; by left|]. intros x Hx. apply H. by right.
Qed.

Lemma hasRemoteDebugging_false (g : ProcessGroup) :
  hasRemoteDebugging g = false <-> no_debug_port g.
Proof.
  unfold hasRemoteDebugging, no_debug_port.
  destruct (find_browser (processes g)) as [b|] eqn:Hb.
  - rewrite existsb_false_iff. split.
    + intros Hargs. right. eauto.
    + intros [Hno | (b' & [= <-] & Hargs)]; [|done].
      apply find_some in Hb as [Hin Htype]. apply str_eqb_true in Htype.
      destruct (Hno b); [by apply list_elem_of_In | done].
  - split; [|done]. intros _. left. intros p Hp.
    apply str_eqb_false. by eapply find_none_iff in Hb.
Qed.

(** X14: a group header shows no CDP badge exactly when the group has no
    member of type Browser or its Browser member has no argument beginning
    with the port flag; a group without the badge is never changed by an
    answer, and every group an answer has pages for shows the badge. *)
Theorem badge_marks_patchable_groups (g : ProcessGroup) :
  (hasRemoteDebugging g = false <-> no_debug_port g) /\
  (forall portMap, hasRemoteDebugging g = false ->
     patch_group portMap g = (false, g)) /\
  (forall portMap pages, pages_for portMap (processes g) = Some pages ->
     hasRemoteDebugging g = true).
Proof.
  split; [apply hasRemoteDebugging_false|]. split.
  - intros portMap Hno. apply hasRemoteDebugging_false in Hno.
    unfold patch_group. by rewrite (pages_for_no_port portMap g Hno).
  - intros portMap pages Hpages.
    destruct (hasRemoteDebugging g) eqn:E; [done|].
    apply hasRemoteDebugging_false in E.
    by rewrite (pages_for_no_port portMap g E) in Hpages.
Qed.

Lemma split_port_flag (rest : string) :
  split "=" (port_flag +:+ rest)
  = "--remote-debugging-port" :: split_go "=" rest "".
Proof. reflexivity. Qed.

(** X15: the port a group is looked up under is the text that follows the
    flag in the first argument beginning with it, up to the end of the
    argument or to its next [=]. *)
Theorem port_is_text_after_flag (browser : ProcessInfo) (port tail : string)
    (Harg : port_arg browser = Some (port_flag +:+ port +:+ tail))
    (Hport : has_char "=" port = false)
    (Htail : tail = "" \/ String.prefix "=" tail = true) :
  port_of browser = Some port.
Proof.
  unfold port_of. rewrite Harg.
  change (split "=" (port_flag +:+ port +:+ tail) !! 1%nat = Some port).
  rewrite split_port_flag.
  destruct (split_go_head "=" port tail "" Hport Htail) as (more & ->). done.
Qed.

(** The browser started with [--remote-debugging-port=9222]. *)
Lemma port_is_text_after_flag_witness :
  port_of (proc_100 debug_args) = Some "9222".
Proof.
  refine (port_is_text_after_flag (proc_100 debug_args) "9222" "" _ _ _);
    [reflexivity | reflexivity | by left].
Defined.

(** What follows a second [=] is not part of the port. *)
Example port_stops_at_next_equals :
  port_of (proc_100 ["--remote-debugging-port=9222=x"]) = Some "9222".
Proof. reflexivity. Qed.

(** The flag with nothing after it: the badge is shown, and no answer can
    reach the group. *)
Example blank_port_never_patched :
  hasRemoteDebugging (group_100 ["--remote-debugging-port="] "" "") = true /\
  pages_for (answer_9222 [page_101])
            (processes (group_100 ["--remote-debugging-port="] "" "")) = None.
Proof. split; reflexivity. Qed.

(** ** The details column *)

Lemma detail_with_url proc : url proc <> "" -> getProcessDetail proc = url proc.
Proof.
  intros Hu. unfold getProcessDetail. by rewrite (proj2 (truthy_str_true _) Hu).
Qed.

(** X16: once an answer has an entry for a process and the entry's URL is
    not empty, the details column of that process shows that URL, whatever
    it showed before; and so does the next published list for the same
    pid. *)
Theorem detail_shows_answered_url (pages : list CdpEntry) (proc : ProcessInfo)
    (e : CdpEntry) (Hmatch : match_for pages proc = Some e)
    (Hurl : entry_url e <> "") :
  getProcessDetail (snd (patch_proc pages proc)) = entry_url e /\
  forall prev new, patched pages proc ∈ all_records prev ->
    agree_on (pid proc) (entry_url e) (or_empty (target_type e)) (all_records prev) ->
    pid new = pid proc ->
    getProcessDetail (carry_proc (build_urlMap prev) new) = entry_url e.
Proof.
  split.
  - rewrite patch_proc_snd. unfold patched. rewrite Hmatch.
    by apply detail_with_url.
  - intros prev new Hin Hag Hpid. unfold carry_proc.
    rewrite Hpid, build_urlMap_flat.
    rewrite (urlMap_lookup_agree (all_records prev) ∅ (pid proc) (entry_url e)
               (or_empty (target_type e)) Hag).
    + by apply detail_with_url.
    + right. exists (patched pages proc). split; [done|].
      unfold patched. rewrite Hmatch. done.
Qed.

(** The renderer 101 after the answer for port 9222. *)
Lemma detail_shows_answered_url_witness :
  getProcessDetail (snd (patch_proc [page_101] (proc_101 "" ""))) = "https://example.com".
Proof.
  refine (proj1 (detail_shows_answered_url [page_101] (proc_101 "" "") page_101 _ _));
    [reflexivity | discriminate].
Defined.

Lemma detail_no_url_cases proc :
  url proc = "" ->
  getProcessDetail proc = "" \/
  exists sub, process_type proc = "Utility" /\
    find (fun a => startsWith a sub_type_flag) (cmd_args proc) = Some sub /\
    getProcessDetail proc =
      let val := string_drop (String.length sub_type_flag) sub in
      if (1 <? length (split "." val))%nat then List.last (split "." val) "" else val.
Proof.
  intros Hu. unfold getProcessDetail. rewrite Hu. simpl.
  destruct (str_eqb (process_type proc) "Utility") eqn:Ht; [|by left].
  destruct (find _ (cmd_args proc)) as [sub|] eqn:Hf; [|by left].
  destruct (truthy_str sub); [|by left]. right. exists sub.
  apply str_eqb_true in Ht. split; [done|]. split; [done|].
  apply find_some in Hf as [_ Hf]. by rewrite (replace_first_prefix _ _ _ Hf).
Qed.

Lemma detail_utility proc val :
  url proc = "" -> process_type proc = "Utility" ->
  find (fun a => startsWith a sub_type_flag) (cmd_args proc)
    = Some (sub_type_flag +:+ val) ->
  getProcessDetail proc =
    if (1 <? length (split "." val))%nat then List.last (split "." val) "" else val.
Proof.
  intros Hu Ht Hf. unfold getProcessDetail. rewrite Hu, Ht, Hf.
  change (truthy_str "") with false. change (str_eqb "Utility" "Utility") with true.
  change (truthy_str (sub_type_flag +:+ val)) with true. cbv iota zeta.
  rewrite replace_first_prefix by (apply prefix_app; eauto).
  by rewrite string_drop_app, str_app_nil_l.
Qed.

(** X17: for a process without URL the details column is empty unless the
    process is of type Utility and has an argument beginning with
    [--utility-sub-type=]; it never contains a dot; and for a sub-type value
    with dots it is the part after the last dot, for one without dots the
    value itself. *)
Theorem detail_without_url (proc : ProcessInfo) (Hurl : url proc = "") :
  has_char "." (getProcessDetail proc) = false /\
  (getProcessDetail proc <> "" ->
     process_type proc = "Utility" /\
     exists a, a ∈ cmd_args proc /\ startsWith a sub_type_flag = true) /\
  (forall pre last,
     process_type proc = "Utility" ->
     find (fun a => startsWith a sub_type_flag) (cmd_args proc)
       = Some (sub_type_flag +:+ pre +:+ "." +:+ last) ->
     has_char "." last = false -> getProcessDetail proc = last) /\
  (forall val,
     process_type proc = "Utility" ->
     find (fun a => startsWith a sub_type_flag) (cmd_args proc)
       = Some (sub_type_flag +:+ val) ->
     has_char "." val = false -> getProcessDetail proc = val).
Proof.
  pose proof (detail_no_url_cases proc Hurl) as Hcases.
  split; [|split; [|split]].
  - destruct Hcases as [-> | (sub & _ & _ & ->)]; [done|]. cbv zeta.
    set (val := string_drop _ sub).
    destruct (Nat.ltb_spec 1 (length (split "." val))) as [Hlen | Hlen].
    + apply (last_Forall (fun s => has_char "." s = false)); [done|].
      by apply split_go_pieces.
    + destruct (has_char "." val) eqn:E; [|done].
      pose proof (split_go_two "." val "" E). unfold split in Hlen. lia.
  - intros Hne. destruct Hcases as [H | (sub & Ht & Hf & _)]; [done|].
    split; [done|]. apply find_some in Hf as [Hin Hf].
    exists sub. split; [by apply list_elem_of_In | done].
  - intros pre last Ht Hf Hlast.
    rewrite (detail_utility proc _ Hurl Ht Hf).
    pose proof (split_go_two "." (pre +:+ "." +:+ last) "") as Htwo.
    rewrite has_char_app in Htwo. simpl in Htwo. rewrite orb_true_r in Htwo.
    specialize (Htwo eq_refl). unfold split.
    destruct (Nat.ltb_spec 1 (length (split_go "." (pre +:+ "." +:+ last) "")));
      [|lia].
    change (pre +:+ "." +:+ last) with (pre +:+ String "." last).
    by apply split_go_last.
  - intros val Ht Hf Hval.
    rewrite (detail_utility proc _ Hurl Ht Hf). unfold split.
    by rewrite (split_go_whole "." val "" Hval).
Qed.

(** The sub-type [network.mojom.NetworkService] is shown as
    [NetworkService]. *)
Lemma detail_without_url_witness :
  getProcessDetail utility_103 = "NetworkService".
Proof.
  refine (proj1 (proj2 (proj2 (detail_without_url utility_103 _)))
            "network.mojom" "NetworkService" _ _ _); reflexivity.
Defined.

Example args_cell_utility :
  args_cell utility_103 = "--lang=en-US --service-sandbox-type=none --no-pre-read-main-dll".
Proof. reflexivity. Qed.

(** ** Listed groups and button counts *)

Lemma type_count_cons g gs t :
  type_count (g :: gs) t
  = ((if counted_under t g then 1 else 0) + type_count gs t)%nat.
Proof. unfold type_count. simpl. by destruct (counted_under t g). Qed.

Lemma visible_counts_split (hidden : gset string) g gs (types : list string) :
  list_sum (map (fun t => if bool_decide (t ∈ hidden) then 0%nat
                          else type_count (g :: gs) t) types)
  = (list_sum (map (fun t => if bool_decide (t ∈ hidden) then 0%nat
                             else if counted_under t g then 1%nat else 0%nat) types)
     + list_sum (map (fun t => if bool_decide (t ∈ hidden) then 0%nat
                               else type_count gs t) types))%nat.
Proof.
  induction types as [|t types IH]; simpl; [done|].
  rewrite IH, type_count_cons. case_bool_decide; lia.
Qed.

Ltac by_membership :=
  repeat match goal with
         | |- context [bool_decide (?t ∈ ?h)] =>
             generalize (bool_decide (t ∈ h)); intros []
         end;
  reflexivity.

Lemma visible_counted_once (hidden : gset string) (g : ProcessGroup) :
  (forall t, t ∈ hidden -> t ∈ ALL_INSTANCE_TYPES) ->
  (if group_visible hidden g then 1%nat else 0%nat)
  = list_sum (map (fun t => if bool_decide (t ∈ hidden) then 0%nat
                            else if counted_under t g then 1%nat else 0%nat)
                  ALL_INSTANCE_TYPES).
Proof.
  intros Hnames. unfold group_visible, counted_under, ALL_INSTANCE_TYPES, includes.
  generalize (getGroupLabel g). intros l. cbn [map existsb list_sum foldr].
  unfold str_eqb.
  destruct (String.eqb_spec l "Stable") as [-> | H1]; [by_membership|].
  destruct (String.eqb_spec l "Beta") as [-> | H2]; [by_membership|].
  destruct (String.eqb_spec l "Dev") as [-> | H3]; [by_membership|].
  destruct (String.eqb_spec l "Canary") as [-> | H4]; [by_membership|].
  destruct (String.eqb_spec l "Internal") as [-> | H5]; [by_membership|].
  destruct (String.eqb_spec l "WebView2") as [-> | H6]; [by_membership|].
  destruct (String.eqb_spec l "Copilot") as [-> | H7]; [by_membership|].
  rewrite (bool_decide_eq_false_2 (l ∈ hidden)); [by_membership|].
  intros Hl. apply Hnames in Hl. unfold ALL_INSTANCE_TYPES in Hl.
  apply list_elem_of_In in Hl. simpl in Hl. intuition congruence.
Qed.

(** X18: as long as the hidden types are names of filter buttons, the
    number of groups listed is the sum of the numbers shown on the buttons
    that are on. *)
Theorem listed_groups_match_buttons (hidden : gset string) (gs : list ProcessGroup)
    (Hnames : forall t, t ∈ hidden -> t ∈ ALL_INSTANCE_TYPES) :
  length (List.filter (group_visible hidden) gs)
  = list_sum (map (fun t => if bool_decide (t ∈ hidden) then 0%nat
                            else type_count gs t) ALL_INSTANCE_TYPES).
Proof.
  induction gs as [|g gs IH].
  - simpl. unfold ALL_INSTANCE_TYPES, type_count. simpl.
    by repeat case_bool_decide.
  - rewrite visible_counts_split, <- IH, <- (visible_counted_once hidden g Hnames).
    simpl. by destruct (group_visible hidden g).
Qed.

(** With WebView2 hidden, the Canary browser is the one group listed. *)
Lemma listed_groups_match_buttons_witness :
  length (List.filter (group_visible default_hidden) [group_100 [] "" ""])
  = list_sum (map (fun t => if bool_decide (t ∈ default_hidden) then 0%nat
                            else type_count [group_100 [] "" ""] t)
                  ALL_INSTANCE_TYPES).
Proof.
  apply (listed_groups_match_buttons default_hidden [group_100 [] "" ""]).
  intros t Ht. unfold default_hidden in Ht. apply elem_of_singleton in Ht.
  rewrite Ht. unfold ALL_INSTANCE_TYPES. do 5 right. left.
Defined.

(** ** Type labels with a final (s) *)

Lemma str_length_app (a b : string) :
  String.length (a +:+ b) = (String.length a + String.length b)%nat.
Proof.
  induction a as [|x a IH]; [done|]. rewrite str_app_cons. simpl. by rewrite IH.
Qed.

Lemma strip_plural_cons (c : ascii) (r : string) :
  strip_plural (String c r)
  = if str_eqb (String c r) "(s)" then "" else String c (strip_plural r).
Proof. reflexivity. Qed.

Lemma strip_plural_app (s : string) : strip_plural (s +:+ "(s)") = s.
Proof.
  induction s as [|c s IH]; [done|].
  rewrite str_app_cons, strip_plural_cons.
  assert (str_eqb (String c (s +:+ "(s)")) "(s)" = false) as ->.
  { apply str_eqb_false. intros Heq. apply (f_equal String.length) in Heq.
    simpl in Heq. rewrite str_length_app in Heq. simpl in Heq. lia. }
  by rewrite IH.
Qed.

(** X19: the display sort drops one final [(s)] and no more: a type label
    written with a final [(s)], in any letter case, is looked up under the
    lowercased label without that [(s)]; so it has the same place in the
    display order as the label without it whenever that label does not
    itself end in [(s)]. *)
Theorem plural_label_ranks_same (p q : ProcessInfo)
    (Hq : toLowerCase (process_type q) = toLowerCase (process_type p) +:+ "(s)") :
  type_key q = toLowerCase (process_type p) /\
  (type_key p = toLowerCase (process_type p) ->
   type_key q = type_key p /\ order_of q = order_of p /\
   precedence q = precedence p).
Proof.
  assert (Hkey : type_key q = toLowerCase (process_type p)).
  { unfold type_key. by rewrite Hq, strip_plural_app. }
  split; [done|]. intros Hp. rewrite <- Hp in Hkey.
  split; [done|]. unfold order_of, precedence. by rewrite Hkey.
Qed.

(** [RENDERER(S)] ranks as [Renderer]. *)
Lemma plural_label_ranks_same_witness :
  order_of (member 4 "RENDERER(S)") = order_of (member 4 "Renderer").
Proof.
  refine (proj1 (proj2 (proj2 (plural_label_ranks_same (member 4 "Renderer")
                                 (member 4 "RENDERER(S)") _) _))); reflexivity.
Defined.

(** A label with two final [(s)] keeps one and ranks with the unknown
    types. *)
Example double_plural_ranks_unknown :
  type_key (member 4 "Renderer(s)(s)") = "renderer(s)" /\
  order_of (member 4 "Renderer(s)(s)") = 99 /\
  order_of (member 4 "Renderer(s)") = 1.
Proof. by vm_compute. Qed.

(** ** Further instances *)

(** Collapsing the group 100 leaves the group 200 expanded. *)
Lemma toggleGroup_flips_one_witness :
  200 ∈ expandedGroups (toggleGroup 100 (set_expanded {[100; 200]} initial_view)) <->
  200 ∈ expandedGroups (set_expanded {[100; 200]} initial_view).
Proof.
  refine (proj1 (proj2 (toggleGroup_flips_one 100
                          (set_expanded {[100; 200]} initial_view))) 200 _).
  discriminate.
Defined.

(** A browser started with two switches: the port switch is left out and
    the other one is all the cell lists. *)
Lemma args_cell_content_witness :
  args_listed (proc_100 ["--no-first-run"; "--remote-debugging-port=9222"])
  = ["--no-first-run"].
Proof.
  refine (proj1 (proj2 (proj2 (proj2
            (args_cell_content
               (proc_100 ["--no-first-run"; "--remote-debugging-port=9222"])))))
            _).
  vm_compute. lia.
Defined.

(** The Canary browser is counted on the Canary button. *)
Lemma buttons_count_every_group_witness :
  counted_under "Canary" (group_100 [] "" "") = true.
Proof.
  refine (proj2 (proj2 (proj2 (buttons_count_every_group []))
                   (group_100 [] "" "") "Canary" _) eq_refl).
  unfold ALL_INSTANCE_TYPES. do 3 right. left.
Defined.

(** A group whose channel is none of the named ones is counted on the
    Stable button. *)
Example unnamed_channel_counts_as_stable :
  map (type_count [mkProcessGroup 7 "msedge.exe" "Extended Stable" "Edge" ""
                     ([] : list ProcessInfo)])
      ALL_INSTANCE_TYPES
  = [1; 0; 0; 0; 0; 0; 0]%nat.
Proof. reflexivity. Qed.

(** A browser started without the port flag has no badge and is handed
    back by every answer. *)
Lemma badge_marks_patchable_groups_witness :
  patch_group (answer_9222 [page_101]) (group_100 [] "" "")
  = (false, group_100 [] "" "").
Proof.
  refine (proj1 (proj2 (badge_marks_patchable_groups (group_100 [] "" "")))
            (answer_9222 [page_101]) _).
  reflexivity.
Defined.

(** * Refresh cycles that overlap *)

(** ** The list a late answer meets *)

Lemma last_snapshot_quiet tr base : no_publication tr -> last_snapshot tr base = base.
Proof.
  unfold last_snapshot. intros Hq. revert base.
  induction Hq as [|e tr He _ IH]; intros base; simpl; [done|].
  destruct e; try done; apply IH.
Qed.

Lemma last_snapshot_published tr1 cycle showLoading data tr2 base :
  no_publication tr2 ->
  last_snapshot (tr1 ++ SnapshotOk cycle showLoading data :: tr2) base = data.
Proof.
  intros Hq. unfold last_snapshot. rewrite foldl_app. simpl.
  by apply last_snapshot_quiet.
Qed.

Lemma find_browser_same ps qs :
  Forall2 same_but_debug ps qs ->
  option_Forall2 same_but_debug (find_browser ps) (find_browser qs).
Proof.
  unfold find_browser.
  induction 1 as [|p q ps qs Hpq _ IH]; simpl; [constructor|].
  pose proof Hpq as (_&_&_&_&_&_&_& -> &_).
  destruct (str_eqb (process_type p) "Browser"); [by constructor | done].
Qed.

Lemma pages_for_same_frame m g g' :
  same_frame g g' -> pages_for m (processes g') = pages_for m (processes g).
Proof.
  intros (_&_&_&_&_& Hp). unfold pages_for.
  destruct (find_browser_same _ _ Hp) as [b b' Hb|]; [|done]. simpl.
  assert (port_of b' = port_of b) as ->; [|done].
  unfold port_of, port_arg. by destruct Hb as (_&_&_&_& -> &_).
Qed.

Lemma with_debug_same_but_debug p q u t :
  same_but_debug p q -> with_debug q u t = with_debug p u t.
Proof.
  intros (H1 & H2 & H3 & H4 & H5 & H6 & H7 & H8 & H9). unfold with_debug.
  by rewrite H1, H2, H3, H4, H5, H6, H7, H8, H9.
Qed.

(** C1 (amended): the answer to the query of cycle N that arrives while the
    list of cycle N+1 is the one on screen is not discarded: where the
    updater returns, it is applied to that list. The list on screen, before
    and after, is the snapshot of cycle N+1 up to debug fields. A record of
    that snapshot whose group declares a port the answer lists takes the
    URL and target type of the first entry, in the order of the answer,
    whose process id is present, not zero and equal to the record's pid,
    whatever other entries name the pid; a record with no such entry stays
    as it was shown; and the list is left as it is exactly when no record
    differs in URL or target type from the first entry that matches it. *)
Theorem late_answer_applied (tr1 tr2 : list event) (n : nat) (showLoading : bool)
    (data : list ProcessGroup) (m : PortMap) (v shown v' : View)
    (Hrun : try_run (tr1 ++ SnapshotOk (S n) showLoading data :: tr2) v = Some shown)
    (Hlast : no_publication tr2)
    (Hstep : try_step (CdpOk n (Some m)) shown = Some v') :
  Forall2 same_frame data (groups shown) /\
  Forall2 same_frame data (groups v') /\
  (forall gi pi g new pages e,
     data !! gi = Some g -> processes g !! pi = Some new ->
     pages_for m (processes g) = Some pages -> match_for pages new = Some e ->
     exists g', groups v' !! gi = Some g' /\
       processes g' !! pi
       = Some (with_debug new (entry_url e) (or_empty (target_type e)))) /\
  (forall gi pi g new,
     data !! gi = Some g -> processes g !! pi = Some new ->
     (forall pages, pages_for m (processes g) = Some pages ->
                    match_for pages new = None) ->
     exists g0 g', groups shown !! gi = Some g0 /\ groups v' !! gi = Some g' /\
       processes g' !! pi = processes g0 !! pi) /\
  (groups v' = groups shown <-> ~ would_change m (groups shown)).
Proof.
  apply try_run_some in Hrun. apply try_step_some in Hstep as [_ ->].
  assert (Hshown : Forall2 same_frame data (groups shown)).
  { subst shown.
    pose proof (run_same_frame (tr1 ++ SnapshotOk (S n) showLoading data :: tr2)
                  v (groups v)) as Hframe.
    rewrite (last_snapshot_published tr1 (S n) showLoading data tr2 (groups v) Hlast)
      in Hframe.
    apply Hframe, Forall_Forall2_diag, Forall_forall.
    intros. apply same_frame_refl. }
  assert (Hpos : forall gi pi g new,
            data !! gi = Some g -> processes g !! pi = Some new ->
            exists g0 r0, groups shown !! gi = Some g0 /\ same_frame g g0 /\
              processes g0 !! pi = Some r0 /\ same_but_debug new r0).
  { intros gi pi g new Hg Hnew.
    destruct (Forall2_lookup_l _ _ _ _ _ Hshown Hg) as (g0 & Hg0 & Hframe).
    pose proof Hframe as (_&_&_&_&_& Hp).
    destruct (Forall2_lookup_l _ _ _ _ _ Hp Hnew) as (r0 & Hr0 & Hsame).
    by exists g0, r0. }
  split; [done|]. split; [|split; [|split]].
  - eapply same_frames_trans; [exact Hshown | apply step_cdp_same_frame].
  - intros gi pi g new pages e Hg Hnew Hpages He.
    destruct (Hpos gi pi g new Hg Hnew) as (g0 & r0 & Hg0 & Hframe & Hr0 & Hsame).
    exists (patched_group m g0). rewrite groups_step_cdp, list_lookup_fmap, Hg0.
    split; [done|]. rewrite (patched_group_lookup m g0 pi r0 Hr0).
    rewrite (pages_for_same_frame m g g0 Hframe), Hpages. f_equal.
    unfold patched.
    rewrite (match_for_same_pid pages r0 new) by (by destruct Hsame as [-> _]).
    rewrite He. by apply with_debug_same_but_debug.
  - intros gi pi g new Hg Hnew Hnone.
    destruct (Hpos gi pi g new Hg Hnew) as (g0 & r0 & Hg0 & Hframe & Hr0 & Hsame).
    exists g0, (patched_group m g0). rewrite groups_step_cdp, list_lookup_fmap, Hg0.
    split; [done|]. split; [done|].
    rewrite (patched_group_lookup m g0 pi r0 Hr0), Hr0. f_equal.
    rewrite (pages_for_same_frame m g g0 Hframe).
    destruct (pages_for m (processes g)) as [pages|] eqn:Hpages; [|done].
    unfold patched.
    rewrite (match_for_same_pid pages r0 new) by (by destruct Hsame as [-> _]).
    by rewrite (Hnone pages eq_refl).
  - rewrite groups_step_cdp. apply unchanged_iff.
Qed.

(** Cycle 0 and cycle 1 both publish the browser with port 9222 and its
    renderer; the answer to the query of cycle 0 then arrives and its entry
    is written onto the renderer's record of cycle 1. *)
Lemma late_answer_applied_witness :
  exists g',
    groups (step (CdpOk 0 (Some (answer_9222 [page_101])))
                 (run two_cycles initial_view)) !! 0%nat = Some g' /\
    processes g' !! 1%nat
    = Some (with_debug (proc_101 "" "") "https://example.com" "page").
Proof.
  exact (proj1 (proj2 (proj2
    (late_answer_applied
       [Started 0 true; SnapshotOk 0 true [group_100 debug_args "" ""];
        Started 1 false]
       [] 0 false [group_100 debug_args "" ""] (answer_9222 [page_101])
       initial_view (run two_cycles initial_view)
       (step (CdpOk 0 (Some (answer_9222 [page_101])))
             (run two_cycles initial_view))
       eq_refl (List.Forall_nil _) eq_refl)))
    0%nat 1%nat (group_100 debug_args "" "") (proc_101 "" "")
    [page_101] page_101 eq_refl eq_refl eq_refl eq_refl).
Defined.

(** C1 as stated fails: cycle 0 and cycle 1 both publish a browser that
    declares port 9222 and its renderer; the answer to the query of cycle 0
    then arrives and is written into the list of cycle 1. *)
Lemma stale_answer_not_discarded :
  published 1 two_cycles /\
  ~ discarded two_cycles 0 (Some (answer_9222 [page_101])) initial_view /\
  groups (run (two_cycles ++ [CdpOk 0 (Some (answer_9222 [page_101]))]) initial_view)
    = [group_100 debug_args "https://example.com" "page"].
Proof.
  split; [|split].
  - exists false, [group_100 debug_args "" ""]. unfold two_cycles. set_solver.
  - unfold discarded. vm_compute. discriminate.
  - vm_compute. reflexivity.
Qed.

(** The first entry decides: the renderer already shows the first entry's
    URL, a second entry for the same pid has another, and the list is left
    as it is. *)
Example later_entry_does_not_count :
  groups (step (CdpOk 0 (Some (answer_9222 [page_101; frame_101])))
               (showing (group_100 debug_args "https://example.com" "page")))
  = [group_100 debug_args "https://example.com" "page"].
Proof. vm_compute. reflexivity. Qed.

(** ** A URL carried from list to list *)

Lemma holds_urlMap p u t prev :
  u <> "" -> holds_url p u t prev -> build_urlMap prev !! p = Some (u, t).
Proof.
  intros Hu [(old & Hold & Hpold) Hall].
  rewrite build_urlMap_flat. apply urlMap_lookup_agree.
  - intros q Hq Hp _. by apply Hall.
  - right. exists old. split; [done|]. split; [done|].
    destruct (Hall old Hold Hpold) as [-> _]. done.
Qed.

Lemma carry_forward_carried p u t prev data :
  u <> "" -> holds_url p u t prev ->
  carried_onto p u t data (carry_forward prev data).
Proof.
  intros Hu Hh. pose proof (holds_urlMap p u t prev Hu Hh) as Hmap.
  unfold carried_onto, carry_forward.
  apply Forall2_fmap_r, Forall_Forall2_diag, Forall_forall. intros g _.
  cbn beta. unfold compose. simpl.
  apply Forall2_fmap_r, Forall_Forall2_diag, Forall_forall. intros r _ Hp.
  unfold compose, carry_proc. by rewrite Hp, Hmap.
Qed.

Lemma patched_carried p u t m base gs :
  silent_on p (Some m) -> carried_onto p u t base gs ->
  carried_onto p u t base (map (patched_group m) gs).
Proof.
  intros Hs Hc. unfold carried_onto in *. apply Forall2_fmap_r.
  eapply Forall2_impl; [exact Hc|]. intros g g' Hg. unfold compose.
  pose proof (fun r => patched_silent m g' r) as Hfix.
  unfold patched_group.
  destruct (pages_for m (processes g')) as [pages|]; [|done]. simpl.
  apply Forall2_fmap_r. eapply Forall2_impl; [exact Hg|].
  intros r r' Hr Hp. unfold compose. rewrite (Hr Hp).
  apply Hfix. simpl. by rewrite Hp.
Qed.

Lemma carried_onto_refl p u t gs :
  (forall r, r ∈ all_records gs -> pid r = p -> url r = u /\ cdp_target_type r = t) ->
  carried_onto p u t gs gs.
Proof.
  intros Hall. apply Forall_Forall2_diag, Forall_forall. intros g Hg.
  apply Forall_Forall2_diag, Forall_forall. intros r Hr Hp.
  destruct (Hall r) as [<- <-]; [|done|by rewrite with_debug_same].
  apply elem_of_all_records. eauto.
Qed.

Lemma run_carried p u t tr v base :
  u <> "" -> Forall (quiet_for p) tr -> holds_url p u t (groups v) ->
  carried_onto p u t base (groups v) ->
  carried_onto p u t (last_snapshot tr base) (groups (run tr v)).
Proof.
  intros Hu Hq. revert v base.
  induction Hq as [|e tr He Htr IH]; intros v base Hh Hc; [done|].
  change (run (e :: tr) v) with (run tr (step e v)).
  change (last_snapshot (e :: tr) base)
    with (last_snapshot tr (match e with SnapshotOk _ _ data => data | _ => base end)).
  apply IH; [by apply step_quiet_holds|].
  destruct e as [c sl | c sl data | c sl err | c pm | c].
  - by destruct sl.
  - rewrite groups_step_snapshot. by apply carry_forward_carried.
  - by destruct sl.
  - rewrite groups_step_cdp. destruct pm as [m|]; [|done].
    by apply patched_carried.
  - done.
Qed.

(** C2: publishing a snapshot writes a URL (with its target type) that the
    list on screen holds for a pid onto the record of that pid in the list
    it publishes, at the place the snapshot has the record, all other
    fields as the snapshot delivered them, before any answer of the debug
    endpoint is applied; through any run of events in which the pid stays
    in every snapshot and no answer names the pid, every record of the pid
    keeps that URL, and the list on screen is the latest snapshot with the
    records of the pid under that URL; and a pid that a snapshot lacks has
    no record in the list published from it. *)
Theorem carry_forward_keeps_url (p : Z) (u t : string) (Hu : u <> "") :
  (forall cycle showLoading data v gi pi g new old,
     data !! gi = Some g -> processes g !! pi = Some new -> pid new = p ->
     old ∈ all_records (groups v) -> pid old = p ->
     url old = u -> cdp_target_type old = t ->
     agree_on p u t (all_records (groups v)) ->
     try_step (SnapshotOk cycle showLoading data) v
       = Some (step (SnapshotOk cycle showLoading data) v) /\
     exists g', groups (step (SnapshotOk cycle showLoading data) v) !! gi = Some g' /\
                processes g' !! pi = Some (with_debug new u t)) /\
  (forall tr v shown, holds_url p u t (groups v) -> Forall (quiet_for p) tr ->
     try_run tr v = Some shown ->
     holds_url p u t (groups shown) /\
     carried_onto p u t (last_snapshot tr (groups v)) (groups shown)) /\
  (forall cycle showLoading data v,
     (forall r, r ∈ all_records data -> pid r <> p) ->
     forall r, r ∈ all_records (groups (step (SnapshotOk cycle showLoading data) v)) ->
               pid r <> p).
Proof.
  split; [|split].
  - intros cycle sl data v gi pi g new old Hg Hnew Hpn Hold Hpo Huo Hto Hag.
    split; [done|]. rewrite groups_step_snapshot.
    destruct (carry_forward_lookup (groups v) data gi pi g new Hg Hnew)
      as (g' & Hg' & Hr).
    exists g'. split; [done|]. rewrite Hr. f_equal. unfold carry_proc.
    rewrite Hpn, build_urlMap_flat.
    rewrite (urlMap_lookup_agree (all_records (groups v)) ∅ p u t Hag); [done|].
    right. exists old. by rewrite Huo.
  - intros tr v shown Hh Hq ->%try_run_some. split; [by apply run_quiet_holds|].
    apply run_carried; [done..|]. apply carried_onto_refl. by destruct Hh.
  - intros cycle sl data v Hno r Hr. rewrite groups_step_snapshot in Hr.
    rewrite all_records_carry_forward in Hr.
    apply list_elem_of_fmap in Hr as (r0 & -> & Hr0).
    rewrite pid_carry_proc. by apply Hno.
Qed.

(** The specification's scenario: the renderer 101 shows
    [https://example.com]; the next snapshot, which delivers the renderer
    without a URL, is published with that URL on the renderer's record; and
    two cycles later, the endpoint having failed and then returned nothing,
    the renderer still shows it. *)
Lemma carry_forward_keeps_url_witness :
  (exists g',
     groups (step (SnapshotOk 1 false [group_100 debug_args "" ""])
                  (showing (group_100 debug_args "https://example.com" "page")))
       !! 0%nat = Some g' /\
     processes g' !! 1%nat
     = Some (with_debug (proc_101 "" "") "https://example.com" "page")) /\
  holds_url 101 "https://example.com" "page"
    (groups (run two_quiet_cycles
                 (showing (group_100 debug_args "https://example.com" "page")))).
Proof.
  assert (Hu : "https://example.com" <> "") by discriminate.
  assert (Hh : holds_url 101 "https://example.com" "page"
                 (groups (showing (group_100 debug_args "https://example.com" "page")))).
  { split.
    - exists (proc_101 "https://example.com" "page"). split; [|reflexivity].
      right. left.
    - intros r Hr Hp. apply list_elem_of_In in Hr. simpl in Hr.
      destruct Hr as [<- | [<- | []]]; [discriminate Hp | split; reflexivity]. }
  destruct (carry_forward_keeps_url 101 "https://example.com" "page" Hu)
    as (Hpublish & Hrun & _).
  split.
  - refine (proj2 (Hpublish 1%nat false [group_100 debug_args "" ""]
              (showing (group_100 debug_args "https://example.com" "page"))
              0%nat 1%nat (group_100 debug_args "" "") (proc_101 "" "")
              (proc_101 "https://example.com" "page")
              eq_refl eq_refl eq_refl _ eq_refl eq_refl eq_refl _)).
    + right. left.
    + intros q Hq Hp _. by apply (proj2 Hh).
  - refine (proj1 (Hrun two_quiet_cycles
              (showing (group_100 debug_args "https://example.com" "page"))
              (run two_quiet_cycles
                   (showing (group_100 debug_args "https://example.com" "page")))
              Hh _ eq_refl)).
    unfold two_quiet_cycles.
    repeat (apply Forall_cons; split); try apply Forall_nil; try exact I.
    + exists (proc_101 "" ""). split; [right; left | reflexivity].
    + exists (proc_101 "" ""). split; [right; left | reflexivity].
    + intros m port pages e [= <-] Hport. rewrite lookup_empty in Hport.
      discriminate Hport.
Defined.
